(** * Runtime extensions editor: record resolution, profile segments and the
      profile session action

    Shallow embedding of
    [src/vs/workbench/parts/extensions/electron-browser/runtimeExtensionsEditor.ts]:
    [RuntimeExtensionsEditor._resolveExtensions], [setProfileInfo] and
    [ExtensionHostProfileAction].

    Conventions of the embedding.
    - A JavaScript [number] that holds a time stamp, a duration or an index is
      an integer [Z] (the profiler reports microsecond ticks), and sums and
      differences are exact. The code computes in binary64: what depends on
      the value of a sum is stated of the segmenter of the module
      [Binary64], which runs on the machine's binary64 numbers, and which
      agrees with the exact one as long as the numbers are integers of
      magnitude up to [2 ^ 53] ([groupSegments_exact],
      [extensionProfileInfo_exact]).
    - A JavaScript object used as a dictionary ([Object.create(null)] and the
      status map) is a [gmap string _]; a missing property is [None].
    - A nullable reference is an [option].
    - A [TypeError] raised by reading a property of [undefined]/[null] is the
      [Throw] outcome of the [Res] monad. *)

From Stdlib Require Import ZArith Lia Ascii.
From Stdlib Require PrimFloat Uint63 FloatAxioms SpecFloat FloatOps.
From stdpp Require Import gmap strings list fin_maps sorting pretty.

Local Open Scope Z_scope.

(** ** Outcomes of JavaScript code that may throw *)

Inductive JsError := TypeError.

Inductive Res (A : Type) : Type :=
| Ok (a : A)
| Throw (e : JsError).
Arguments Ok {A} a.
Arguments Throw {A} e.

Definition res_bind {A B} (m : Res A) (k : A → Res B) : Res B :=
  match m with
  | Ok a => k a
  | Throw e => Throw e
  end.

Global Instance Res_bind : MBind Res := fun _ _ k m => res_bind m k.
Global Instance Res_ret : MRet Res := fun _ a => Ok a.

(** State and exception monad of the methods of an object with fields [S]:
    the state reached is kept when a method throws. *)
Definition ST (S A : Type) : Type := S → Res A * S.

Definition ret {S A} (a : A) : ST S A := fun s => (Ok a, s).

Definition bind {S A B} (m : ST S A) (k : A → ST S B) : ST S B :=
  fun s => match m s with
           | (Ok a, s') => k a s'
           | (Throw e, s') => (Throw e, s')
           end.

Definition throw {S A} (e : JsError) : ST S A := fun s => (Throw e, s).

Global Instance ST_bind {S} : MBind (ST S) := fun _ _ k m => bind m k.
Global Instance ST_ret {S} : MRet (ST S) := fun _ a => ret a.

Definition get {S A} (f : S → A) : ST S A := fun s => (Ok (f s), s).
Definition modify {S} (f : S → S) : ST S unit := fun s => (Ok tt, f s).

(** ** Data model *)

(** [IExtensionHostProfile]: the fields read by the editor ([data] and
    [getAggregatedTimes] are never touched by it). *)
Record IExtensionHostProfile := {
  startTime : Z;
  endTime : Z;
  deltas : list Z;
  ids : list string
}.

(** [segments] is the flat array: [2*i] is a segment start, [2*i+1] its end. *)
Record IExtensionProfileInformation := {
  segments : list Z;
  totalTime : Z
}.

Record IExtensionDescription := {
  id : string;
  name : string;
  version : string
}.

Module IExtension.
Record t := { id : string; displayName : string }.
End IExtension.

Record IActivationTimes := {
  startup : bool;
  codeLoadingTime : Z;
  activateCallTime : Z;
  activationEvent : string
}.

Record IExtensionsStatus := {
  messages : list string;
  activationTimes : option IActivationTimes
}.

(** [status] is what [statusMap[id]] returned, so it is [None] when the map
    has no such property; the same holds for [marketplaceInfo]. *)
Record IRuntimeExtension := {
  originalIndex : Z;
  description : IExtensionDescription;
  marketplaceInfo : option IExtension.t;
  status : option IExtensionsStatus;
  profileInfo : option IExtensionProfileInformation
}.

(** The editor fields and the two service snapshots that
    [_resolveExtensions] reads. *)
Record RuntimeExtensionsEditor := {
  _profileInfo : option IExtensionHostProfile;
  _elements : option (list IRuntimeExtension);
  _extensionsDescriptions : list IExtensionDescription;
  (* this._extensionsWorkbenchService.local *)
  local : list IExtension.t;
  (* this._extensionService.getExtensionsStatus() *)
  getExtensionsStatus : gmap string IExtensionsStatus
}.

(** ** Grouping the profile segments by extension (lines 137-155) *)

(** [ids[i]]: an index past the end of the array reads [undefined], which as
    a property key is the string ["undefined"]. *)
Definition idAt (idsArr : list string) (i : nat) : string :=
  default "undefined"%string (idsArr !! i).

(** The loop [for (i = 0; i < deltas.length; i++)]; [rest] is [deltas]
    from index [i] on. The cursor advances in exact arithmetic;
    [Binary64.segmentLoop] is the loop with the rounding addition. *)
Fixpoint segmentLoop (idsArr : list string) (i : nat) (rest : list Z)
    (segs : gmap string (list Z)) (currentStartTime : Z)
    : gmap string (list Z) :=
  match rest with
  | [] => segs
  | delta :: rest' =>
      let key := idAt idsArr i in
      let extensionSegments := default [] (segs !! key) in
      segmentLoop idsArr (S i) rest'
        (<[key := extensionSegments ++
                    [currentStartTime; currentStartTime + delta]]> segs)
        (currentStartTime + delta)
  end.

Definition groupSegments (profile : option IExtensionHostProfile)
    : gmap string (list Z) :=
  match profile with
  | None => ∅
  | Some p => segmentLoop (ids p) 0 (deltas p) ∅ (startTime p)
  end.

(** ** Per-extension profile information (lines 161-174) *)

(** [for (j = 0, lenJ = extensionSegments.length / 2; j < lenJ; j++)
      extensionTotalTime += extensionSegments[2*j+1] - extensionSegments[2*j]].
    The arrays built by [segmentLoop] are flat interval lists
    ([groupSegments_flat]), so their length is even, [length / 2] is an exact
    division and both reads are in range. The sum is exact;
    [Binary64.sumSegments] is the loop with the rounding operations. *)
Definition sumSegments (extensionSegments : list Z) : Z :=
  foldl (fun extensionTotalTime j =>
           let startT := default 0 (extensionSegments !! (2 * j)%nat) in
           let endT := default 0 (extensionSegments !! (2 * j + 1)%nat) in
           extensionTotalTime + (endT - startT))
        0 (seq 0 (length extensionSegments / 2)%nat).

Definition extensionProfileInfo (profile : option IExtensionHostProfile)
    (segs : gmap string (list Z)) (d : IExtensionDescription)
    : option IExtensionProfileInformation :=
  match profile with
  | None => None
  | Some _ =>
      let extensionSegments := default [] (segs !! id d) in
      Some {| segments := extensionSegments;
              totalTime := sumSegments extensionSegments |}
  end.

(** ** The resolver (lines 128-198) *)

(** [for (let extension of local) marketplaceMap[extension.id] = extension]. *)
Definition marketplaceMapOf (l : list IExtension.t) : gmap string IExtension.t :=
  foldl (fun m extension => <[IExtension.id extension := extension]> m) ∅ l.

(** The loop filling [result[i]]. *)
Definition buildResult (ed : RuntimeExtensionsEditor) : list IRuntimeExtension :=
  let marketplaceMap := marketplaceMapOf (local ed) in
  let statusMap := getExtensionsStatus ed in
  let segs := groupSegments (_profileInfo ed) in
  imap (fun i extensionDescription =>
          {| originalIndex := Z.of_nat i;
             description := extensionDescription;
             marketplaceInfo := marketplaceMap !! id extensionDescription;
             status := statusMap !! id extensionDescription;
             profileInfo :=
               extensionProfileInfo (_profileInfo ed) segs extensionDescription |})
       (_extensionsDescriptions ed).

(** [result.filter((element) => element.status.activationTimes)]: reading
    [activationTimes] of an undefined [status] throws. *)
Fixpoint filterActivated (result : list IRuntimeExtension)
    : Res (list IRuntimeExtension) :=
  match result with
  | [] => Ok []
  | element :: rest =>
      match status element with
      | None => Throw TypeError
      | Some s =>
          kept ← filterActivated rest;
          Ok (match activationTimes s with
              | Some _ => element :: kept
              | None => kept
              end)
      end
  end.

(** The comparator handed to [sort]; [a.profileInfo.totalTime] throws on a
    null [profileInfo]. *)
Definition compareByProfile (a b : IRuntimeExtension) : Res Z :=
  match profileInfo a, profileInfo b with
  | Some pa, Some pb =>
      Ok (if decide (totalTime pa = totalTime pb)
          then originalIndex a - originalIndex b
          else totalTime pb - totalTime pa)
  | _, _ => Throw TypeError
  end.

(** The host's [Array.prototype.sort], a parameter of the resolver. *)
Definition SortFn : Type :=
  (IRuntimeExtension → IRuntimeExtension → Res Z) →
  list IRuntimeExtension → Res (list IRuntimeExtension).

Definition _resolveExtensions (Array_sort : SortFn)
    (ed : RuntimeExtensionsEditor) : Res (list IRuntimeExtension) :=
  result ← filterActivated (buildResult ed);
  match _profileInfo ed with
  | Some _ => Array_sort compareByProfile result
  | None => Ok result
  end.

(** ** A reference host sort

    An insertion sort driven by the (possibly throwing) comparator: one
    implementation of [Array.prototype.sort], used to run the resolver. The
    theorems below hold for every host sort that meets the language
    specification ([SortSpec]). *)

Fixpoint insertBy (cmp : IRuntimeExtension → IRuntimeExtension → Res Z)
    (x : IRuntimeExtension) (l : list IRuntimeExtension)
    : Res (list IRuntimeExtension) :=
  match l with
  | [] => Ok [x]
  | y :: l' =>
      c ← cmp x y;
      if decide (c ≤ 0) then Ok (x :: y :: l')
      else (r ← insertBy cmp x l'; Ok (y :: r))
  end.

Fixpoint insertionSort (cmp : IRuntimeExtension → IRuntimeExtension → Res Z)
    (l : list IRuntimeExtension) : Res (list IRuntimeExtension) :=
  match l with
  | [] => Ok []
  | x :: l' => sorted ← insertionSort cmp l'; insertBy cmp x sorted
  end.

(** ** Refreshing the editor (lines 116-126) *)

Definition set_profileInfo (v : option IExtensionHostProfile)
    (ed : RuntimeExtensionsEditor) : RuntimeExtensionsEditor :=
  {| _profileInfo := v;
     _elements := _elements ed;
     _extensionsDescriptions := _extensionsDescriptions ed;
     local := local ed;
     getExtensionsStatus := getExtensionsStatus ed |}.

Definition set_elements (v : option (list IRuntimeExtension))
    (ed : RuntimeExtensionsEditor) : RuntimeExtensionsEditor :=
  {| _profileInfo := _profileInfo ed;
     _elements := v;
     _extensionsDescriptions := _extensionsDescriptions ed;
     local := local ed;
     getExtensionsStatus := getExtensionsStatus ed |}.

(** [_updateExtensions()]: an exception of the resolve leaves [_elements]
    as it was. The splice into the list widget that follows is rendering and
    is left out. *)
Definition _updateExtensions (Array_sort : SortFn)
    : ST RuntimeExtensionsEditor unit :=
  fun ed =>
    match _resolveExtensions Array_sort ed with
    | Ok elements => (Ok tt, set_elements (Some elements) ed)
    | Throw e => (Throw e, ed)
    end.

(** [setProfileInfo(profileInfo)]. *)
Definition setProfileInfo (Array_sort : SortFn)
    (profile : IExtensionHostProfile) : ST RuntimeExtensionsEditor unit :=
  modify (set_profileInfo (Some profile));;
  _updateExtensions Array_sort.

(** ** The profile session action (lines 471-546) *)

Module ProfileSessionState.
Inductive t := None | Starting | Running | Stopping.
End ProfileSessionState.

(** An opaque, non-null session handle. *)
Definition ProfileSession : Type := nat.

(** The two external requests of the action, and the promise each returns. *)
Inductive Request :=
| StartRequest                        (* _extensionService.startExtensionHostProfile() *)
| StopRequest (session : ProfileSession). (* session.stop() *)

Global Instance Request_eq_dec : EqDecision Request.
Proof. solve_decision. Defined.

Definition LABEL_START : string := "Start Extension Host Profile".
Definition LABEL_STOP : string := "Stop Extension Host Profile".
Definition STOP_CSS_CLASS : string := "extension-host-profile-stop".
Definition START_CSS_CLASS : string := "extension-host-profile-start".

(** The action's own fields, then everything it acts on: the parent editor,
    the promises that are still pending, the log of every request ever
    issued, the errors given to [onUnexpectedError] and the arguments of
    every [setProfileInfo] call. *)
Record World := {
  _profileSession : option ProfileSession;
  _state : ProfileSessionState.t;
  class : string;
  label : string;
  _parentEditor : RuntimeExtensionsEditor;
  outstanding : list Request;
  issued : list Request;
  unexpectedErrors : list string;
  published : list IExtensionHostProfile
}.

(** The methods of the action. *)
Abbreviation M := (ST World).

Definition set_profileSession (v : option ProfileSession) (w : World) : World :=
  {| _profileSession := v; _state := _state w; class := class w;
     label := label w; _parentEditor := _parentEditor w;
     outstanding := outstanding w; issued := issued w;
     unexpectedErrors := unexpectedErrors w; published := published w |}.

Definition set_state (s : ProfileSessionState.t) (w : World) : World :=
  {| _profileSession := _profileSession w; _state := s; class := class w;
     label := label w; _parentEditor := _parentEditor w;
     outstanding := outstanding w; issued := issued w;
     unexpectedErrors := unexpectedErrors w; published := published w |}.

Definition set_class_label (c l : string) (w : World) : World :=
  {| _profileSession := _profileSession w; _state := _state w; class := c;
     label := l; _parentEditor := _parentEditor w;
     outstanding := outstanding w; issued := issued w;
     unexpectedErrors := unexpectedErrors w; published := published w |}.

(** Calling an external capability: the request is logged and its promise
    is pending until one of the completion events below settles it. *)
Definition issue (r : Request) : M unit :=
  modify (fun w =>
    {| _profileSession := _profileSession w; _state := _state w;
       class := class w; label := label w; _parentEditor := _parentEditor w;
       outstanding := outstanding w ++ [r]; issued := issued w ++ [r];
       unexpectedErrors := unexpectedErrors w; published := published w |}).

Definition onUnexpectedError (err : string) : M unit :=
  modify (fun w =>
    {| _profileSession := _profileSession w; _state := _state w;
       class := class w; label := label w; _parentEditor := _parentEditor w;
       outstanding := outstanding w; issued := issued w;
       unexpectedErrors := unexpectedErrors w ++ [err];
       published := published w |}).

(** [this._parentEditor.setProfileInfo(result)]: the call is logged, the
    method runs on the parent editor, and what it throws is thrown here. *)
Definition parent_setProfileInfo (Array_sort : SortFn)
    (result : IExtensionHostProfile) : M unit :=
  fun w =>
    let '(outcome, ed) := setProfileInfo Array_sort result (_parentEditor w) in
    (outcome,
     {| _profileSession := _profileSession w; _state := _state w;
        class := class w; label := label w;
        _parentEditor := ed;
        outstanding := outstanding w; issued := issued w;
        unexpectedErrors := unexpectedErrors w;
        published := published w ++ [result] |}).

(** [update()] (lines 498-506). *)
Definition update : M unit :=
  session ← get _profileSession;
  match session with
  | Some _ => modify (set_class_label STOP_CSS_CLASS LABEL_STOP)
  | None => modify (set_class_label START_CSS_CLASS LABEL_START)
  end.

(** [_setState(state)] (lines 508-511). *)
Definition _setState (state : ProfileSessionState.t) : M unit :=
  modify (set_state state);; update.

(** The four callbacks registered by [run]. *)
Definition onStartFulfilled (value : ProfileSession) : M unit :=
  modify (set_profileSession (Some value));;
  _setState ProfileSessionState.Running.

Definition onStartRejected (err : string) : M unit :=
  onUnexpectedError err;;
  _setState ProfileSessionState.None.

Definition onStopFulfilled (Array_sort : SortFn)
    (result : IExtensionHostProfile) : M unit :=
  parent_setProfileInfo Array_sort result;;
  (* console.log(result); console.log(`here here`); *)
  _setState ProfileSessionState.None.

Definition onStopRejected (err : string) : M unit :=
  onUnexpectedError err;;
  _setState ProfileSessionState.None.

(** [run()] (lines 513-545). *)
Definition run : M unit :=
  state ← get _state;
  match state with
  | ProfileSessionState.None =>
      _setState ProfileSessionState.Starting;;
      issue StartRequest
  | ProfileSessionState.Starting => ret tt
  | ProfileSessionState.Running =>
      _setState ProfileSessionState.Stopping;;
      session ← get _profileSession;
      match session with
      | Some s => issue (StopRequest s)
      | None => throw TypeError          (* null.stop() *)
      end;;
      modify (set_profileSession None)
  | ProfileSessionState.Stopping => ret tt
  end.

(** The constructor (lines 488-496). *)
Definition newAction (parentEditor : RuntimeExtensionsEditor) : World :=
  snd (_setState ProfileSessionState.None
         {| _profileSession := None; _state := ProfileSessionState.None;
            class := START_CSS_CLASS; label := LABEL_START;
            _parentEditor := parentEditor;
            outstanding := []; issued := [];
            unexpectedErrors := []; published := [] |}).

(** What can happen to an action: a [run()] call, or the settlement of a
    pending promise, which runs the matching callback. All of it happens on
    one thread, one event after the other. *)
Inductive Event :=
| EvRun
| EvStartResolved (value : ProfileSession)
| EvStartRejected (err : string)
| EvStopResolved (session : ProfileSession) (result : IExtensionHostProfile)
| EvStopRejected (session : ProfileSession) (err : string).

(** Removes the first pending promise of request [r]. *)
Fixpoint settle (r : Request) (l : list Request) : list Request :=
  match l with
  | [] => []
  | r' :: l' => if decide (r = r') then l' else r' :: settle r l'
  end.

Definition settled (r : Request) (w : World) : World :=
  {| _profileSession := _profileSession w; _state := _state w;
     class := class w; label := label w; _parentEditor := _parentEditor w;
     outstanding := settle r (outstanding w); issued := issued w;
     unexpectedErrors := unexpectedErrors w; published := published w |}.

(** A promise settles only when it is pending; [None] means the event cannot
    happen in [w]. An exception of [run] or of a callback goes to its caller
    and the action keeps the state it had reached. *)
Definition step (Array_sort : SortFn) (w : World) (e : Event) : option World :=
  match e with
  | EvRun => Some (snd (run w))
  | EvStartResolved value =>
      if decide (StartRequest ∈ outstanding w)
      then Some (snd (onStartFulfilled value (settled StartRequest w)))
      else None
  | EvStartRejected err =>
      if decide (StartRequest ∈ outstanding w)
      then Some (snd (onStartRejected err (settled StartRequest w)))
      else None
  | EvStopResolved session result =>
      if decide (StopRequest session ∈ outstanding w)
      then Some (snd (onStopFulfilled Array_sort result
                        (settled (StopRequest session) w)))
      else None
  | EvStopRejected session err =>
      if decide (StopRequest session ∈ outstanding w)
      then Some (snd (onStopRejected err (settled (StopRequest session) w)))
      else None
  end.

Fixpoint steps (Array_sort : SortFn) (w : World) (evs : list Event)
    : option World :=
  match evs with
  | [] => Some w
  | e :: evs' =>
      match step Array_sort w e with
      | Some w' => steps Array_sort w' evs'
      | None => None
      end
  end.

(** * Specification-side definitions *)

(** ** The segmenter *)

(** The trace as the specification describes it: the ordered (label, delta)
    pairs, and per label the intervals [[cursor, cursor + delta)] met by a
    cursor that starts at the start time and advances by every delta. *)
Fixpoint intervalsOf (lbl : string) (cursor : Z) (pairs : list (string * Z))
    : list (Z * Z) :=
  match pairs with
  | [] => []
  | (l, delta) :: rest =>
      let later := intervalsOf lbl (cursor + delta) rest in
      if decide (l = lbl) then (cursor, cursor + delta) :: later else later
  end.

(** The flat array layout of an interval list. *)
Fixpoint flatten (ivs : list (Z * Z)) : list Z :=
  match ivs with
  | [] => []
  | (s, e) :: rest => s :: e :: flatten rest
  end.

Fixpoint sumLengths (ivs : list (Z * Z)) : Z :=
  match ivs with
  | [] => 0
  | (s, e) :: rest => (e - s) + sumLengths rest
  end.

Fixpoint sumZ (l : list Z) : Z :=
  match l with
  | [] => 0
  | x :: rest => x + sumZ rest
  end.

(** The pairs the loop really visits from index [i] on. *)
Fixpoint pairsFrom (idsArr : list string) (i : nat) (rest : list Z)
    : list (string * Z) :=
  match rest with
  | [] => []
  | delta :: rest' => (idAt idsArr i, delta) :: pairsFrom idsArr (S i) rest'
  end.

(** The sum over all labels of the per-label totals. *)
Definition totalOverLabels (segs : gmap string (list Z)) : Z :=
  map_fold (fun _ extensionSegments acc => sumSegments extensionSegments + acc)
           0 segs.

(** Segments in the flat layout are ordered and do not overlap: each one
    ends no earlier than it starts, and starts no earlier than any previous
    one ended. *)
Definition SegmentsOrdered (l : list Z) : Prop :=
  (∀ (j : nat) s e,
     l !! (2 * j)%nat = Some s → l !! (2 * j + 1)%nat = Some e → s ≤ e) ∧
  (∀ (j k : nat) e s, (j < k)%nat →
     l !! (2 * j + 1)%nat = Some e → l !! (2 * k)%nat = Some s → e ≤ s) ∧
  (∀ (j k : nat) s s', (j < k)%nat →
     l !! (2 * j)%nat = Some s → l !! (2 * k)%nat = Some s' → s ≤ s').

(** Every array of the dictionary is the flat layout of an interval list. *)
Definition FlatValues (segs : gmap string (list Z)) : Prop :=
  map_Forall (fun _ v => ∃ ivs, v = flatten ivs) segs.

Definition sampleTrace : IExtensionHostProfile :=
  {| startTime := 1000; endTime := 2000;
     deltas := [500; 300; 200]; ids := ["A"; "B"; "A"]%string |}.

Definition describe (i : string) : IExtensionDescription :=
  {| id := i; name := i; version := "1.0.0" |}.

(** A trace with a negative delta: the cursor moves back. *)
Definition backwardTrace : IExtensionHostProfile :=
  {| startTime := 0; endTime := -5;
     deltas := [10; -20; 5]; ids := ["A"; "B"; "A"]%string |}.

(** ** The resolver *)

(** The record the resolver stores at [result[i]]. *)
Definition recordAt (ed : RuntimeExtensionsEditor) (i : nat)
    (d : IExtensionDescription) : IRuntimeExtension :=
  {| originalIndex := Z.of_nat i;
     description := d;
     marketplaceInfo := marketplaceMapOf (local ed) !! id d;
     status := getExtensionsStatus ed !! id d;
     profileInfo :=
       extensionProfileInfo (_profileInfo ed) (groupSegments (_profileInfo ed)) d |}.

(** The filter's test on a record whose [status] is defined. *)
Definition hasActivationTimes (element : IRuntimeExtension) : bool :=
  match status element with
  | Some s => bool_decide (is_Some (activationTimes s))
  | None => false
  end.

(** The descriptions that make it into the list: those whose status entry
    has activation times. *)
Definition isCandidate (statusMap : gmap string IExtensionsStatus)
    (d : IExtensionDescription) : bool :=
  match statusMap !! id d with
  | Some s => bool_decide (is_Some (activationTimes s))
  | None => false
  end.

(** The value of the comparator on records that carry a [profileInfo]. *)
Definition totalTimeOf (r : IRuntimeExtension) : Z :=
  from_option totalTime 0 (profileInfo r).

Definition compareKeys (a b : IRuntimeExtension) : Z :=
  if decide (totalTimeOf a = totalTimeOf b)
  then originalIndex a - originalIndex b
  else totalTimeOf b - totalTimeOf a.

(** A consistent comparison function on the elements of [l], in the sense
    of the language specification of [Array.prototype.sort]. *)
Definition ConsistentOn (c : IRuntimeExtension → IRuntimeExtension → Z)
    (l : list IRuntimeExtension) : Prop :=
  (∀ a b, a ∈ l → b ∈ l → (c a b < 0 ↔ 0 < c b a)) ∧
  (∀ a b d, a ∈ l → b ∈ l → d ∈ l → c a b ≤ 0 → c b d ≤ 0 → c a d ≤ 0).

(** What the language guarantees of a host sort: when the comparator does
    not throw and is consistent on the elements of the array, the result is
    a permutation of the array in which no element is followed by one the
    comparator puts before it. Nothing is assumed about stability or about
    the algorithm. *)
Definition SortSpec (Array_sort : SortFn) : Prop :=
  ∀ cmp (c : IRuntimeExtension → IRuntimeExtension → Z) l,
    (∀ a b, a ∈ l → b ∈ l → cmp a b = Ok (c a b)) →
    ConsistentOn c l →
    ∃ l', Array_sort cmp l = Ok l' ∧ l' ≡ₚ l ∧
          StronglySorted (fun a b => c a b ≤ 0) l'.


Definition activated : IExtensionsStatus :=
  {| messages := [];
     activationTimes :=
       Some {| startup := true; codeLoadingTime := 3; activateCallTime := 4;
               activationEvent := "*" |} |}.

Definition notActivated : IExtensionsStatus :=
  {| messages := []; activationTimes := None |}.

(** The editor with another marketplace snapshot. *)
Definition withLocal (ed : RuntimeExtensionsEditor) (l : list IExtension.t)
    : RuntimeExtensionsEditor :=
  {| _profileInfo := _profileInfo ed;
     _elements := _elements ed;
     _extensionsDescriptions := _extensionsDescriptions ed;
     local := l;
     getExtensionsStatus := getExtensionsStatus ed |}.

(** A record without its marketplace entry. *)
Definition withoutMarketplace (r : IRuntimeExtension) : IRuntimeExtension :=
  {| originalIndex := originalIndex r;
     description := description r;
     marketplaceInfo := None;
     status := status r;
     profileInfo := profileInfo r |}.

(** Membership in a list given by its elements. *)
Ltac elem_cons :=
  repeat (rewrite elem_of_cons); repeat (rewrite elem_of_cons in * |-);
  intuition (subst; auto).

(** Descriptions [A; B; C] without a trace; [B] has a status entry without
    activation times. *)
Definition scenarioEditor : RuntimeExtensionsEditor :=
  {| _profileInfo := None;
     _elements := None;
     _extensionsDescriptions := [describe "A"; describe "B"; describe "C"];
     local := [];
     getExtensionsStatus :=
       <["A"%string := activated]>
         (<["B"%string := notActivated]> (<["C"%string := activated]> ∅)) |}.

(** The same descriptions; [B] has no status entry at all. *)
Definition missingStatusEditor : RuntimeExtensionsEditor :=
  {| _profileInfo := None;
     _elements := None;
     _extensionsDescriptions := [describe "A"; describe "B"; describe "C"];
     local := [];
     getExtensionsStatus :=
       <["A"%string := activated]> (<["C"%string := activated]> ∅) |}.

(** Descriptions [B; A; C; D], all activated, under [sampleTrace]: [A] ran
    700, [B] ran 300, [C] and [D] did not run. *)
Definition profiledEditor : RuntimeExtensionsEditor :=
  {| _profileInfo := Some sampleTrace;
     _elements := None;
     _extensionsDescriptions :=
       [describe "B"; describe "A"; describe "C"; describe "D"];
     local := [];
     getExtensionsStatus :=
       <["A"%string := activated]>
         (<["B"%string := activated]>
            (<["C"%string := activated]> (<["D"%string := activated]> ∅))) |}.

(** ** The profile session action *)

(** What holds of the action between two events: the session handle and
    the pending promise that go with each state. *)
Definition Coherent (w : World) : Prop :=
  match _state w with
  | ProfileSessionState.None =>
      _profileSession w = None ∧ outstanding w = []
  | ProfileSessionState.Starting =>
      _profileSession w = None ∧ outstanding w = [StartRequest]
  | ProfileSessionState.Running =>
      is_Some (_profileSession w) ∧ outstanding w = []
  | ProfileSessionState.Stopping =>
      _profileSession w = None ∧
      (outstanding w = [] ∨ ∃ s, outstanding w = [StopRequest s])
  end.

(** An editor with nothing in it, and a trace-free run of events. *)
Definition emptyEditor : RuntimeExtensionsEditor :=
  {| _profileInfo := None; _elements := None; _extensionsDescriptions := [];
     local := []; getExtensionsStatus := ∅ |}.

(** Runs the methods of the action on a world given by its fields. *)
Ltac action_compute :=
  cbv [run onStartFulfilled onStartRejected onStopFulfilled onStopRejected
       _setState update issue onUnexpectedError parent_setProfileInfo
       modify get throw ret bind mbind ST_bind set_state set_profileSession
       set_class_label settled snd fst _state _profileSession outstanding
       issued unexpectedErrors published class label _parentEditor].

(** ** More on the segmenter and the resolver *)

(** The deltas of the pairs that bear a label, in trace order. *)
Fixpoint labelDeltas (lbl : string) (pairs : list (string * Z)) : list Z :=
  match pairs with
  | [] => []
  | (l, delta) :: rest =>
      if decide (l = lbl) then delta :: labelDeltas lbl rest
      else labelDeltas lbl rest
  end.

(** A record without its profile information. *)
Definition withoutProfile (r : IRuntimeExtension) : IRuntimeExtension :=
  {| originalIndex := originalIndex r;
     description := description r;
     marketplaceInfo := marketplaceInfo r;
     status := status r;
     profileInfo := None |}.

(** A trace with two consecutive entries of one extension and fewer ids than
    deltas. *)
Definition raggedTrace : IExtensionHostProfile :=
  {| startTime := 100; endTime := 160;
     deltas := [10; 20; 5; 25]; ids := ["A"; "A"]%string |}.

Definition marketA1 : IExtension.t :=
  {| IExtension.id := "A"; IExtension.displayName := "first" |}.
Definition marketA2 : IExtension.t :=
  {| IExtension.id := "A"; IExtension.displayName := "second" |}.
Definition marketC : IExtension.t :=
  {| IExtension.id := "C"; IExtension.displayName := "third" |}.

(** Descriptions [A; B; C], all activated; the marketplace snapshot lists
    [A] twice and does not list [B]. *)
Definition marketEditor : RuntimeExtensionsEditor :=
  {| _profileInfo := None;
     _elements := None;
     _extensionsDescriptions := [describe "A"; describe "B"; describe "C"];
     local := [marketA1; marketC; marketA2];
     getExtensionsStatus :=
       <["A"%string := activated]>
         (<["B"%string := activated]> (<["C"%string := activated]> ∅)) |}.

(** ** More on the editor refresh and on the action *)

(** The text of the action's button goes with its state. *)
Definition Labelled (w : World) : Prop :=
  match _state w with
  | ProfileSessionState.None | ProfileSessionState.Starting =>
      label w = LABEL_START ∧ class w = START_CSS_CLASS
  | ProfileSessionState.Running | ProfileSessionState.Stopping =>
      label w = LABEL_STOP ∧ class w = STOP_CSS_CLASS
  end.

(** How many requests of each kind a log holds. *)
Definition startCount (log : list Request) : nat :=
  length (filter (fun r => r = StartRequest) log).

Definition stopCount (log : list Request) : nat :=
  length (filter (fun r => r ≠ StartRequest) log).

(** The counts that go with each state of the action. *)
Definition Counted (w : World) : Prop :=
  (length (published w) + stopCount (outstanding w)
     ≤ stopCount (issued w))%nat ∧
  match _state w with
  | ProfileSessionState.Starting | ProfileSessionState.Running =>
      (stopCount (issued w) < startCount (issued w))%nat
  | _ => (stopCount (issued w) ≤ startCount (issued w))%nat
  end.

(** What the action leaves of its parent editor: the descriptions and the
    service snapshots, and as trace the last one it published. *)
Definition EditorKept (parent : RuntimeExtensionsEditor) (w : World) : Prop :=
  _extensionsDescriptions (_parentEditor w) = _extensionsDescriptions parent ∧
  local (_parentEditor w) = local parent ∧
  getExtensionsStatus (_parentEditor w) = getExtensionsStatus parent ∧
  _profileInfo (_parentEditor w) =
    match last (published w) with
    | Some result => Some result
    | None => _profileInfo parent
    end.

(** ** Rendering a row (lines 285-358) *)

(** The message with every placeholder [{0}] replaced by the argument. *)
Fixpoint format0 (message arg : string) : string :=
  match message with
  | String "{" (String "0" (String "}" rest)) => arg +:+ format0 rest arg
  | String c rest => String c (format0 rest arg)
  | EmptyString => EmptyString
  end.

(** [nls.localize(key, message, ...args)] with the default messages: the
    message itself without arguments, and else the message with its
    placeholders filled in; the messages of this file have no placeholder
    but [{0}]. *)
Definition localize (key message : string) (args : list string) : string :=
  match args with
  | [] => message
  | arg :: _ => format0 message arg
  end.

(** [s.substr(n)]: the string from index [n] on, empty past the end. *)
Fixpoint substr (n : nat) (s : string) : string :=
  match n, s with
  | O, _ => s
  | S n', String _ s' => substr n' s'
  | S _, EmptyString => EmptyString
  end.

(** [s.indexOf(c) >= 0] for a one-character string [c]. *)
Fixpoint hasChar (c : ascii) (s : string) : bool :=
  match s with
  | EmptyString => false
  | String c' s' => if decide (c' = c) then true else hasChar c s'
  end.

(** The title of the activation time (lines 303-318);
    [/^workspaceContains:/.test(e)] is a prefix test. *)
Definition activationTitle (activationEvent : string) : string :=
  if decide (activationEvent = "*"%string) then
    localize "starActivation" "Activated on start-up" []
  else if String.prefix "workspaceContains:" activationEvent then
    let fileNameOrGlob :=
      substr (String.length "workspaceContains:") activationEvent in
    if hasChar "*"%char fileNameOrGlob || hasChar "?"%char fileNameOrGlob then
      localize "workspaceContainsGlobActivation"
        "Activated because a file matching {0} exists in your workspace"
        [fileNameOrGlob]
    else
      localize "workspaceContainsFileActivation"
        "Activated because file {0} exists in your workspace"
        [fileNameOrGlob]
  else if String.prefix "onLanguage:" activationEvent then
    let language := substr (String.length "onLanguage:") activationEvent in
    localize "languageActivation"
      "Activated because you opened a {0} file" [language]
  else
    localize "workspaceGenericActivation" "Activated on {0}" [activationEvent].

(** What [renderElement] writes into the template: the properties of the
    template's nodes, by their path. The array [elementDisposables] holds the
    error listeners registered on the icon; a listener is written as the
    element its handler closes over. *)
Inductive DomValue :=
| Text (s : string)
| Flag (b : bool)
| Context (element : IRuntimeExtension)
| Disposables (listeners : list IRuntimeExtension).

(** [o.f] on a possibly undefined [o]. *)
Definition deref {S A} (o : option A) : ST S A :=
  match o with
  | Some a => ret a
  | None => throw TypeError
  end.

Definition write (path : string) (v : DomValue)
    : ST (gmap string DomValue) unit :=
  modify (insert path v).

(** The double quote. *)
Definition dq : string := String "034"%char EmptyString.

(** ['<rect x="0" y="99" width="100" height="1" />']. *)
Definition baselineRect : string :=
  "<rect x=" +:+ dq +:+ "0" +:+ dq +:+ " y=" +:+ dq +:+ "99" +:+ dq +:+
  " width=" +:+ dq +:+ "100" +:+ dq +:+ " height=" +:+ dq +:+ "1" +:+ dq +:+
  " />".

Definition svgOpen : string :=
  "<svg class=" +:+ dq +:+ "profile-timeline-svg" +:+ dq +:+
  " preserveAspectRatio=" +:+ dq +:+ "none" +:+ dq +:+
  " height=" +:+ dq +:+ "16" +:+ dq +:+
  " viewBox=" +:+ dq +:+ "0 0 100 100" +:+ dq +:+ ">".

Definition svgClose : string := "</svg>".

Section Rendering.

(** The fields [iconUrl] and [iconUrlFallback] of [IExtension], which the
    record above leaves out, and the two places where [renderElement]
    computes in floating point:
    [(totalTime / 1000).toFixed(2)], and the [<rect ... />] of a segment from
    its start and end relative to the trace start and the duration of the
    trace ([start / absoluteDuration * 100] and so on). *)
Variable iconUrl : IExtension.t → string.
Variable iconUrlFallback : IExtension.t → string.
Variable toFixed2 : Z → string.
Variable segmentRect : Z → Z → Z → string.

(** The loop over the segments (lines 335-348). *)
Definition timelineInner (profile : IExtensionHostProfile)
    (elementSegments : list Z) : string :=
  foldl (fun inner i =>
           let absoluteStart := default 0 (elementSegments !! (2 * i)%nat) in
           let absoluteEnd := default 0 (elementSegments !! (2 * i + 1)%nat) in
           let startT := absoluteStart - startTime profile in
           let endT := absoluteEnd - startTime profile in
           let absoluteDuration := endTime profile - startTime profile in
           inner +:+ segmentRect startT endT absoluteDuration)
        baselineRect (seq 0 (length elementSegments / 2)%nat).

(** The handler of the icon's error listener (line 291), for when the image
    fails to load. *)
Definition onIconError (element : IRuntimeExtension)
    : ST (gmap string DomValue) unit :=
  info ← deref (marketplaceInfo element);
  write "icon.src" (Text (iconUrlFallback info)).

(** [renderElement(element, index, data)] of the editor [ed]. Lines 287-293
    dispose of the listeners of the element shown before and register the
    error listener of this element on the icon, which leaves it as the one
    entry of [elementDisposables]. *)
Definition renderElement (ed : RuntimeExtensionsEditor)
    (element : IRuntimeExtension) : ST (gmap string DomValue) unit :=
  write "elementDisposables" (Disposables [element]);;
  info ← deref (marketplaceInfo element);
  write "icon.src" (Text (iconUrl info));;
  write "name.textContent" (Text (IExtension.displayName info));;
  elementStatus ← deref (status element);
  times ← deref (activationTimes elementStatus);
  let syncTime := codeLoadingTime times + activateCallTime times in
  write "activationTimeLabel.textContent"
    (Text ("Activation: " +:+ pretty syncTime +:+ "ms"));;
  write "actionbar.context" (Context element);;
  write "activationTimeContainer.title"
    (Text (activationTitle (activationEvent times)));;
  write "activationTimeContainer.class.on-startup" (Flag (startup times));;
  match messages elementStatus with
  | first :: _ =>
      write "msgIcon.className" (Text "octicon octicon-alert");;
      write "msgLabel.textContent" (Text first)
  | [] =>
      write "msgIcon.className" (Text EmptyString);;
      write "msgLabel.textContent" (Text EmptyString)
  end;;
  match _profileInfo ed with
  | Some profile =>
      elementProfile ← deref (profileInfo element);
      write "profileTime.textContent"
        (Text ("Profile: " +:+ toFixed2 (totalTime elementProfile) +:+ "ms"));;
      let inner := timelineInner profile (segments elementProfile) in
      write "profileTimeline.innerHTML" (Text (svgOpen +:+ inner +:+ svgClose));;
      write "profileTimeline.style.display" (Text "inherit")
  | None =>
      write "profileTime.textContent" (Text EmptyString);;
      write "profileTimeline.innerHTML" (Text EmptyString);;
      write "profileTimeline.style.display" (Text "none")
  end.

End Rendering.


(** Stand-ins for the host's formatting, to run the renderer. *)
Definition sampleIconUrl (e : IExtension.t) : string :=
  "icon:" +:+ IExtension.id e.

Definition sampleToFixed2 (t : Z) : string := pretty t.

Definition sampleRect (startT endT duration : Z) : string :=
  "[" +:+ pretty startT +:+ "," +:+ pretty endT +:+ "/" +:+ pretty duration +:+ "]".

(** Runs a method of the state and exception monad. *)
Ltac st_compute :=
  cbv [deref write mbind ST_bind bind modify ret throw fst snd].

(** ** Reporting an issue (lines 437-469) *)

Inductive LocalExtensionType := System | User.

(** [s.substr(0, n)]: the first [n] characters of [s], the empty string
    when [n] is not positive. *)
Fixpoint firstChars (n : nat) (s : string) : string :=
  match n, s with
  | S n', String c s' => String c (firstChars n' s')
  | _, _ => EmptyString
  end.

Definition substr0 (n : Z) (s : string) : string := firstChars (Z.to_nat n) s.

(** The line feed. *)
Definition lf : string := String "010"%char EmptyString.

Section ReportIssue.

(** The fields the data model above leaves out ([marketplaceInfo.type],
    [description.repository.url], with [None] for a description without
    repository), the constants of the product and the host, and the host's
    [encodeURIComponent]. *)
Variable extensionType : IExtension.t → LocalExtensionType.
Variable repositoryUrl : IExtensionDescription → option string.
Variable reportIssueUrl : string.
Variable os_type os_arch os_release : string.
Variable pkg_version : string.
Variable encodeURIComponent : string → string.

(** The text of the issue, before encoding (lines 461-464). *)
Definition issueBody (extension : IRuntimeExtension) : string :=
  let osVersion := os_type +:+ " " +:+ os_arch +:+ " " +:+ os_release in
  "- Extension Name: " +:+ name (description extension) +:+ lf +:+
  "- Extension Version: " +:+ version (description extension) +:+ lf +:+
  "- OS Version: " +:+ osVersion +:+ lf +:+
  "- VSCode version: " +:+ pkg_version +:+
  lf +:+ lf +:+
  " We have written the needed data into your clipboard. Please paste:".

(** [generateNewIssueUrl(extension)]; an empty string is falsy. *)
Definition generateNewIssueUrl (extension : IRuntimeExtension) : Res string :=
  match marketplaceInfo extension with
  | None => Throw TypeError
  | Some info =>
      let baseUrl :=
        match extensionType info, repositoryUrl (description extension) with
        | User, Some (String c rest) =>
            let url := String c rest in
            substr0 (Z.of_nat (String.length url) - 4) url +:+ "/issues/new/"
        | _, _ => reportIssueUrl
        end in
      let queryStringPrefix :=
        if hasChar "?" baseUrl then "&"%string else "?"%string in
      let body := encodeURIComponent (issueBody extension) in
      Ok (baseUrl +:+ queryStringPrefix +:+ "body=" +:+ body)
  end.

End ReportIssue.

(** Stand-ins to run the issue reporter. *)
Definition userType (_ : IExtension.t) : LocalExtensionType := User.

Definition gitRepository (d : IExtensionDescription) : option string :=
  Some ("https://example.org/" +:+ id d +:+ ".git").

Definition shortRepository (_ : IExtensionDescription) : option string :=
  Some "git"%string.

Definition marketRow (i : string) : IRuntimeExtension :=
  {| originalIndex := 0;
     description := describe i;
     marketplaceInfo :=
       Some {| IExtension.id := i; IExtension.displayName := i |};
     status := Some activated;
     profileInfo := None |}.

(** ** The segmenter in the numbers of the code (lines 137-174)

    The cursor, the segment boundaries and the totals are JavaScript
    numbers: binary64 values, added and subtracted with rounding to the
    nearest value, ties to even. [PrimFloat.float] is this type, and
    [PrimFloat.add] and [PrimFloat.sub] are these operations. *)

Module Binary64.

Abbreviation number := PrimFloat.float.

(** The number that an integer literal denotes, for an integer below
    [2 ^ 63] in magnitude. *)
Definition ofZ (z : Z) : number :=
  if z <? 0 then PrimFloat.opp (PrimFloat.of_uint63 (Uint63.of_Z (- z)))
  else PrimFloat.of_uint63 (Uint63.of_Z z).

Record IExtensionHostProfile := {
  startTime : number;
  endTime : number;
  deltas : list number;
  ids : list string
}.

Record IExtensionProfileInformation := {
  segments : list number;
  totalTime : number
}.

(** The loop [for (i = 0; i < deltas.length; i++)] of lines 139-155, with
    [currentStartTime = currentStartTime + delta] the addition of
    numbers. *)
Fixpoint segmentLoop (idsArr : list string) (i : nat) (rest : list number)
    (segs : gmap string (list number)) (currentStartTime : number)
    : gmap string (list number) :=
  match rest with
  | [] => segs
  | delta :: rest' =>
      let key := idAt idsArr i in
      let extensionSegments := default [] (segs !! key) in
      segmentLoop idsArr (S i) rest'
        (<[key := extensionSegments ++
                    [currentStartTime;
                     PrimFloat.add currentStartTime delta]]> segs)
        (PrimFloat.add currentStartTime delta)
  end.

Definition groupSegments (profile : option IExtensionHostProfile)
    : gmap string (list number) :=
  match profile with
  | None => ∅
  | Some p => segmentLoop (ids p) 0 (deltas p) ∅ (startTime p)
  end.

(** [for (j = 0, lenJ = extensionSegments.length / 2; j < lenJ; j++)
      extensionTotalTime += (endTime - startTime)] (lines 164-169). [j] runs
    over the integers below [length / 2], a read past the end of the array is
    [undefined], and [undefined] in a subtraction is [NaN]. *)
Definition sumSegments (extensionSegments : list number) : number :=
  foldl (fun extensionTotalTime j =>
           let startT :=
             default PrimFloat.nan (extensionSegments !! (2 * j)%nat) in
           let endT :=
             default PrimFloat.nan (extensionSegments !! (2 * j + 1)%nat) in
           PrimFloat.add extensionTotalTime (PrimFloat.sub endT startT))
        (ofZ 0) (seq 0 ((length extensionSegments + 1) / 2)%nat).

Definition extensionProfileInfo (profile : option IExtensionHostProfile)
    (segs : gmap string (list number)) (d : IExtensionDescription)
    : option IExtensionProfileInformation :=
  match profile with
  | None => None
  | Some _ =>
      let extensionSegments := default [] (segs !! id d) in
      Some {| segments := extensionSegments;
              totalTime := sumSegments extensionSegments |}
  end.

(** The total time of every label of the dictionary. *)
Definition totals (profile : option IExtensionHostProfile)
    : gmap string number :=
  sumSegments <$> groupSegments profile.

(** The integers up to which binary64 holds every integer. *)
Definition safeInteger (z : Z) : Prop := Z.abs z ≤ 2 ^ 53.

End Binary64.

(** A trace of integer ticks as the trace of numbers that the code gets. *)
Definition ofTrace (p : IExtensionHostProfile)
    : Binary64.IExtensionHostProfile :=
  {| Binary64.startTime := Binary64.ofZ (startTime p);
     Binary64.endTime := Binary64.ofZ (endTime p);
     Binary64.deltas := Binary64.ofZ <$> deltas p;
     Binary64.ids := ids p |}.

Definition ofInfo (info : IExtensionProfileInformation)
    : Binary64.IExtensionProfileInformation :=
  {| Binary64.segments := Binary64.ofZ <$> segments info;
     Binary64.totalTime := Binary64.ofZ (totalTime info) |}.

(** The sum of the magnitudes of the start time and of the deltas: a bound
    on every number that the segmenter computes from a trace of integer
    ticks. *)
Definition magnitude (p : IExtensionHostProfile) : Z :=
  Z.abs (startTime p) + sumZ (Z.abs <$> deltas p).

(** The sum of the magnitudes of the lengths of a list of intervals. *)
Fixpoint sumAbsLengths (ivs : list (Z * Z)) : Z :=
  match ivs with
  | [] => 0
  | (s, e) :: rest => Z.abs (e - s) + sumAbsLengths rest
  end.

(** The binary64 value that holds the integer [z], in the terms of the
    specification of the machine's numbers ([SpecFloat]): zero, or the sign
    of [z] with the significand [q] at the exponent [t] that the leading bit
    of [z] gives. *)
Definition Represents (z : Z) (x : SpecFloat.spec_float) : Prop :=
  (z = 0 ∧ x = SpecFloat.S754_zero false) ∨
  (z ≠ 0 ∧
   ∃ (q : positive) (t : Z),
     x = SpecFloat.S754_finite (z <? 0) q t ∧
     t = Z.log2 (Z.abs z) - 52 ∧
     Zpos q * 2 ^ (t + 52) = Z.abs z * 2 ^ 52).

(** Traces at the edge of the integers that binary64 holds: two entries of
    one tick each from [2 ^ 53] on, where the cursor does not move, and two
    entries of three ticks each, where it is rounded upwards. *)
Definition edgeTrace : IExtensionHostProfile :=
  {| startTime := 2 ^ 53; endTime := 2 ^ 53 + 2;
     deltas := [1; 1]; ids := ["A"; "A"]%string |}.

Definition edgeTrace3 : IExtensionHostProfile :=
  {| startTime := 2 ^ 53; endTime := 2 ^ 53 + 6;
     deltas := [3; 3]; ids := ["A"; "A"]%string |}.

(** * Proofs *)

(** ** The segmenter *)

Lemma flatten_app (a b : list (Z * Z)) :
  flatten (a ++ b) = flatten a ++ flatten b.
Proof.
  induction a as [|[s e] a IH]; simpl; [done|]. by rewrite IH.
Qed.

Lemma sumLengths_app (a b : list (Z * Z)) :
  sumLengths (a ++ b) = sumLengths a + sumLengths b.
Proof.
  induction a as [|[s e] a IH]; simpl; [done|]. rewrite IH. lia.
Qed.

Lemma pairsFrom_zip (idsArr : list string) (i : nat) (rest : list Z) :
  (length rest ≤ length (drop i idsArr))%nat →
  pairsFrom idsArr i rest = zip (drop i idsArr) rest.
Proof.
  revert i. induction rest as [|delta rest IH]; intros i Hlen.
  - by destruct (drop i idsArr).
  - simpl. destruct (drop i idsArr) as [|x xs] eqn:Hd; simpl in Hlen; [lia|].
    assert (Hx : idsArr !! i = Some x).
    { rewrite <- (Nat.add_0_r i), <- lookup_drop, Hd. done. }
    assert (Hxs : drop (S i) idsArr = xs).
    { change xs with (drop 1 (x :: xs)).
      rewrite <- Hd, drop_drop. f_equal; lia. }
    unfold idAt at 1. rewrite Hx. simpl. f_equal.
    rewrite IH; rewrite Hxs; [done|lia].
Qed.

Lemma pairsFrom_of_pairs (pairs : list (string * Z)) :
  pairsFrom pairs.*1 0 pairs.*2 = pairs.
Proof.
  rewrite pairsFrom_zip.
  - rewrite drop_0. apply zip_fst_snd.
  - rewrite drop_0, !length_fmap. lia.
Qed.

(** The loop appends, to what each label already had, exactly the label's
    intervals. *)
Lemma segmentLoop_lookup (idsArr : list string) (lbl : string) (rest : list Z) :
  ∀ (i : nat) (segs : gmap string (list Z)) (cur : Z),
    default [] (segmentLoop idsArr i rest segs cur !! lbl) =
    default [] (segs !! lbl) ++
      flatten (intervalsOf lbl cur (pairsFrom idsArr i rest)).
Proof.
  induction rest as [|delta rest IH]; intros i segs cur; simpl.
  - by rewrite app_nil_r.
  - rewrite IH. destruct (decide (idAt idsArr i = lbl)) as [->|Hne].
    + rewrite lookup_insert_eq. simpl. by rewrite <- app_assoc.
    + by rewrite lookup_insert_ne.
Qed.



Lemma foldl_add_acc {A} (g : A → Z) (l : list A) (acc : Z) :
  foldl (fun t j => t + g j) acc l = acc + foldl (fun t j => t + g j) 0 l.
Proof.
  revert acc. induction l as [|x l IH]; intros acc; simpl; [lia|].
  rewrite (IH (acc + g x)), (IH (0 + g x)). lia.
Qed.

Lemma foldl_pointwise {A B} (f g : A → B → A) (l : list B) (acc : A) :
  (∀ t j, f t j = g t j) → foldl f acc l = foldl g acc l.
Proof.
  intros Hfg. revert acc. induction l as [|x l IH]; intros acc; simpl; [done|].
  by rewrite Hfg, IH.
Qed.

Lemma sumSegments_cons2 (s e : Z) (l : list Z) :
  sumSegments (s :: e :: l) = (e - s) + sumSegments l.
Proof.
  unfold sumSegments.
  replace (length (s :: e :: l) / 2)%nat with (S (length l / 2)).
  2:{ simpl length. change (S (S (length l))) with (1 * 2 + length l)%nat.
      rewrite Nat.div_add_l by lia. lia. }
  rewrite <- cons_seq. rewrite <- fmap_S_seq.
  cbn [foldl]. rewrite foldl_fmap.
  rewrite foldl_add_acc. simpl.
  f_equal. apply foldl_pointwise.
  intros t j.
  replace (j + S (j + 0) + 1)%nat with (S (j + (j + 0) + 1)) by lia.
  replace (j + S (j + 0))%nat with (S (j + (j + 0))) by lia.
  done.
Qed.

Lemma sumSegments_flatten (ivs : list (Z * Z)) :
  sumSegments (flatten ivs) = sumLengths ivs.
Proof.
  induction ivs as [|[s e] ivs IH]; simpl; [done|].
  by rewrite sumSegments_cons2, IH.
Qed.

Lemma sumSegments_nil : sumSegments [] = 0.
Proof. reflexivity. Qed.

Lemma totalOverLabels_insert_fresh (m : gmap string (list Z)) (k : string)
    (v : list Z) :
  m !! k = None →
  totalOverLabels (<[k := v]> m) = sumSegments v + totalOverLabels m.
Proof.
  intros Hk. unfold totalOverLabels.
  rewrite map_fold_insert_L; [done| |done].
  intros. lia.
Qed.

Lemma totalOverLabels_insert (m : gmap string (list Z)) (k : string)
    (v : list Z) :
  totalOverLabels (<[k := v]> m) =
  totalOverLabels m + sumSegments v - sumSegments (default [] (m !! k)).
Proof.
  destruct (m !! k) as [old|] eqn:Hk; simpl.
  - rewrite <- (insert_delete_eq m).
    rewrite totalOverLabels_insert_fresh by apply lookup_delete_eq.
    rewrite <- (insert_delete_id m k old) at 2 by done.
    rewrite totalOverLabels_insert_fresh by apply lookup_delete_eq.
    lia.
  - rewrite totalOverLabels_insert_fresh by done. rewrite sumSegments_nil. lia.
Qed.

Lemma segmentLoop_total (idsArr : list string) (rest : list Z) :
  ∀ (i : nat) (segs : gmap string (list Z)) (cur : Z),
    FlatValues segs →
    totalOverLabels (segmentLoop idsArr i rest segs cur) =
    totalOverLabels segs + sumZ rest.
Proof.
  induction rest as [|delta rest IH]; intros i segs cur Hflat; simpl.
  - lia.
  - assert (Hold : ∃ ivs, default [] (segs !! idAt idsArr i) = flatten ivs).
    { destruct (segs !! idAt idsArr i) as [old|] eqn:Hk; simpl.
      - by apply (Hflat _ _ Hk).
      - by exists []. }
    destruct Hold as [ivs Hivs].
    rewrite IH.
    + rewrite totalOverLabels_insert, Hivs.
      change [cur; cur + delta] with (flatten [(cur, cur + delta)]).
      rewrite <- flatten_app, !sumSegments_flatten, sumLengths_app. simpl. lia.
    + apply map_Forall_insert_2; [|done].
      exists (ivs ++ [(cur, cur + delta)]).
      by rewrite Hivs, flatten_app.
Qed.

Lemma groupSegments_flat (profile : option IExtensionHostProfile) :
  FlatValues (groupSegments profile).
Proof.
  destruct profile as [p|]; [|apply map_Forall_empty].
  intros lbl v Hv. eexists.
  pose proof (segmentLoop_lookup (ids p) lbl (deltas p) 0 ∅ (startTime p)) as H.
  simpl in Hv. rewrite Hv, lookup_empty in H. simpl in H. exact H.
Qed.

Lemma intervalsOf_sorted (lbl : string) (pairs : list (string * Z)) :
  Forall (fun d => 0 ≤ d) pairs.*2 →
  ∀ cur, StronglySorted Z.le (flatten (intervalsOf lbl cur pairs)) ∧
         Forall (Z.le cur) (flatten (intervalsOf lbl cur pairs)).
Proof.
  induction pairs as [|[l delta] pairs IH]; intros Hpos cur; simpl.
  - split; constructor.
  - simpl in Hpos. apply Forall_cons in Hpos as [Hd Hpos].
    destruct (IH Hpos (cur + delta)) as [Hs Hge].
    assert (Hge' : Forall (Z.le cur) (flatten (intervalsOf lbl (cur + delta) pairs))).
    { eapply Forall_impl; [exact Hge|]. simpl. intros; lia. }
    destruct (decide (l = lbl)); simpl; [|done].
    split.
    + repeat constructor; try done; try lia.
    + repeat constructor; try done; lia.
Qed.

Lemma StronglySorted_lookup {A} (R : relation A) (l : list A) (a b : nat)
    (x y : A) :
  StronglySorted R l → (a < b)%nat →
  l !! a = Some x → l !! b = Some y → R x y.
Proof.
  intros Hs. revert a b. induction Hs as [|z l Hs IH Hall]; intros a b Hab Ha Hb.
  - done.
  - destruct b as [|b]; [lia|]. simpl in Hb.
    destruct a as [|a]; simpl in Ha.
    + simplify_eq. rewrite Forall_forall in Hall. apply Hall.
      by eapply list_elem_of_lookup_2.
    + eapply (IH a b); [lia|done..].
Qed.

Lemma sorted_SegmentsOrdered (l : list Z) :
  StronglySorted Z.le l → SegmentsOrdered l.
Proof.
  intros Hs. split; [|split].
  - intros j s e Hs' He.
    eapply (StronglySorted_lookup Z.le l (2 * j) (2 * j + 1)); [done|lia|done..].
  - intros j k e s Hjk He Hs'.
    eapply (StronglySorted_lookup Z.le l (2 * j + 1) (2 * k)); [done|lia|done..].
  - intros j k s s' Hjk Hs1 Hs2.
    eapply (StronglySorted_lookup Z.le l (2 * j) (2 * k)); [done|lia|done..].
Qed.



(** In exact arithmetic the totals of all labels sum to the sum of the
    deltas. *)
Lemma groupSegments_total (p : IExtensionHostProfile) :
  totalOverLabels (groupSegments (Some p)) = sumZ (deltas p).
Proof.
  unfold groupSegments.
  rewrite segmentLoop_total by apply map_Forall_empty.
  unfold totalOverLabels. rewrite map_fold_empty. lia.
Qed.

(** C9, as stated, fails: with a negative delta in the trace the second
    segment of ["A"] starts at -10, before the first one ended at 10. *)
Lemma segments_ordered_counterexample :
  default [] (groupSegments (Some backwardTrace) !! "A"%string) =
    [0; 10; -10; -5] ∧
  (∃ e s, default [] (groupSegments (Some backwardTrace) !! "A"%string)
            !! (2 * 0 + 1)%nat = Some e ∧
          default [] (groupSegments (Some backwardTrace) !! "A"%string)
            !! (2 * 1)%nat = Some s ∧
          s < e) ∧
  ¬ SegmentsOrdered (default [] (groupSegments (Some backwardTrace) !! "A"%string)).
Proof.
  split; [reflexivity|]. split.
  - exists 10, (-10). split; [reflexivity|]. split; [reflexivity|]. lia.
  - intros (_ & H & _). specialize (H 0%nat 1%nat 10 (-10)).
    assert (10 ≤ -10) by (apply H; [lia|reflexivity..]). lia.
Qed.

(** C9, amended. For every trace whose deltas are all non-negative, the
    segment list of every label is ordered by start time and its segments do
    not overlap: every segment ends no earlier than it starts and starts no
    earlier than any previous segment of the label ended. *)
Theorem segments_ordered (p : IExtensionHostProfile) (lbl : string) :
  Forall (fun delta => 0 ≤ delta) (deltas p) →
  SegmentsOrdered (default [] (groupSegments (Some p) !! lbl)).
Proof.
  intros Hpos. apply sorted_SegmentsOrdered.
  unfold groupSegments. rewrite segmentLoop_lookup, lookup_empty. simpl.
  apply intervalsOf_sorted.
  clear -Hpos. generalize 0%nat. generalize (ids p).
  induction (deltas p) as [|delta rest IH]; intros idsArr i; simpl; [constructor|].
  apply Forall_cons in Hpos as [Hd Hpos]. constructor; [done|]. by apply IH.
Qed.

Lemma segments_ordered_witness :
  SegmentsOrdered (default [] (groupSegments (Some sampleTrace) !! "A"%string)).
Proof.
  apply (segments_ordered sampleTrace "A").
  repeat constructor; lia.
Defined.

(** ** The resolver *)

Lemma buildResult_imap (ed : RuntimeExtensionsEditor) :
  buildResult ed = imap (recordAt ed) (_extensionsDescriptions ed).
Proof. reflexivity. Qed.

Lemma buildResult_lookup (ed : RuntimeExtensionsEditor) (i : nat)
    (r : IRuntimeExtension) :
  buildResult ed !! i = Some r ↔
  ∃ d, _extensionsDescriptions ed !! i = Some d ∧ r = recordAt ed i d.
Proof.
  rewrite buildResult_imap, list_lookup_imap.
  destruct (_extensionsDescriptions ed !! i) as [d|]; simpl; split.
  - intros [= <-]. by exists d.
  - by intros (d' & [= <-] & ->).
  - done.
  - by intros (d' & ? & _).
Qed.

Lemma buildResult_elem (ed : RuntimeExtensionsEditor) (r : IRuntimeExtension) :
  r ∈ buildResult ed →
  ∃ i d, _extensionsDescriptions ed !! i = Some d ∧ r = recordAt ed i d.
Proof.
  intros [i Hi]%list_elem_of_lookup. apply buildResult_lookup in Hi. eauto.
Qed.

Lemma buildResult_length (ed : RuntimeExtensionsEditor) :
  length (buildResult ed) = length (_extensionsDescriptions ed).
Proof. by rewrite buildResult_imap, length_imap. Qed.

(** The stored index determines the record. *)
Lemma buildResult_index_inj (ed : RuntimeExtensionsEditor)
    (a b : IRuntimeExtension) :
  a ∈ buildResult ed → b ∈ buildResult ed →
  originalIndex a = originalIndex b → a = b.
Proof.
  intros (i & d & Hd & ->)%buildResult_elem (j & d' & Hd' & ->)%buildResult_elem.
  simpl. intros Hij. assert (i = j) by lia. subst j. congruence.
Qed.

Lemma buildResult_NoDup (ed : RuntimeExtensionsEditor) :
  NoDup (buildResult ed).
Proof.
  apply NoDup_alt. intros i j r Hi Hj.
  apply buildResult_lookup in Hi as (d & _ & ->).
  apply buildResult_lookup in Hj as (d' & _ & Heq).
  apply (f_equal originalIndex) in Heq. simpl in Heq. lia.
Qed.

Lemma filterActivated_inv (l kept : list IRuntimeExtension) :
  filterActivated l = Ok kept →
  Forall (fun r => is_Some (status r)) l ∧ kept = filter hasActivationTimes l.
Proof.
  revert kept. induction l as [|r l IH]; intros kept; simpl.
  - intros [= <-]. by split.
  - destruct (status r) as [s|] eqn:Hs; [|done].
    destruct (filterActivated l) as [kept'|] eqn:Hl; [|done]. simpl.
    intros [= <-]. destruct (IH kept' eq_refl) as [Hall ->].
    split; [constructor; [by exists s|done]|].
    rewrite filter_cons.
    destruct (activationTimes s) as [a|] eqn:Ha.
    + rewrite decide_True; [done|].
      unfold hasActivationTimes. rewrite Hs, Ha. done.
    + rewrite decide_False; [done|].
      unfold hasActivationTimes. rewrite Hs, Ha. simpl. tauto.
Qed.

Lemma filterActivated_Ok (l : list IRuntimeExtension) :
  Forall (fun r => is_Some (status r)) l →
  filterActivated l = Ok (filter hasActivationTimes l).
Proof.
  intros Hall. destruct (filterActivated l) as [kept|e] eqn:Hl.
  - by apply filterActivated_inv in Hl as [_ ->].
  - exfalso. induction Hall as [|r l [s Hs] Hall IH]; simpl in Hl; [done|].
    rewrite Hs in Hl. destruct (filterActivated l); [done|]. by apply IH.
Qed.

Lemma filterActivated_Throw (l : list IRuntimeExtension) :
  Exists (fun r => status r = None) l →
  filterActivated l = Throw TypeError.
Proof.
  intros Hex. destruct (filterActivated l) as [kept|[]] eqn:Hl; [|done].
  apply filterActivated_inv in Hl as [Hall _].
  apply Exists_exists in Hex as (r & Hr & Hnone).
  rewrite Forall_forall in Hall. specialize (Hall r Hr).
  rewrite Hnone in Hall. by destruct Hall.
Qed.

(** *** The comparator *)

Lemma compareByProfile_keys (a b : IRuntimeExtension) :
  is_Some (profileInfo a) → is_Some (profileInfo b) →
  compareByProfile a b = Ok (compareKeys a b).
Proof.
  intros [pa Ha] [pb Hb]. unfold compareByProfile, compareKeys, totalTimeOf.
  by rewrite Ha, Hb.
Qed.

Lemma compareKeys_le (a b : IRuntimeExtension) :
  compareKeys a b ≤ 0 ↔
  totalTimeOf b < totalTimeOf a ∨
  (totalTimeOf a = totalTimeOf b ∧ originalIndex a ≤ originalIndex b).
Proof. unfold compareKeys. case_decide; lia. Qed.

Lemma compareKeys_consistent (l : list IRuntimeExtension) :
  ConsistentOn compareKeys l.
Proof.
  split.
  - intros a b _ _. unfold compareKeys. repeat case_decide; lia.
  - intros a b d _ _ _. rewrite !compareKeys_le. lia.
Qed.

(** *** The reference sort meets the specification of the host sort *)

Lemma ConsistentOn_total c (l : list IRuntimeExtension) a b :
  ConsistentOn c l → a ∈ l → b ∈ l → c a b ≤ 0 ∨ c b a ≤ 0.
Proof.
  intros [Hanti _] Ha Hb. destruct (Hanti a b Ha Hb), (Hanti b a Hb Ha).
  destruct (decide (c a b ≤ 0)); [by left|right].
  assert (c b a < 0) by (apply H2; lia). lia.
Qed.

Lemma ConsistentOn_subseteq c (l l' : list IRuntimeExtension) :
  l' ⊆ l → ConsistentOn c l → ConsistentOn c l'.
Proof.
  intros Hsub [Hanti Htrans]. split.
  - intros a b Ha Hb. apply Hanti; by apply Hsub.
  - intros a b d Ha Hb Hd. apply Htrans; by apply Hsub.
Qed.

Lemma insertBy_spec cmp c (x : IRuntimeExtension) (l : list IRuntimeExtension) :
  (∀ a b, a ∈ x :: l → b ∈ x :: l → cmp a b = Ok (c a b)) →
  ConsistentOn c (x :: l) →
  StronglySorted (fun a b => c a b ≤ 0) l →
  ∃ r, insertBy cmp x l = Ok r ∧ r ≡ₚ x :: l ∧
       StronglySorted (fun a b => c a b ≤ 0) r.
Proof.
  intros Hcmp Hcons Hsorted.
  induction Hsorted as [|y l Hsorted IH Hall]; simpl.
  - exists [x]. repeat split; [done|]. repeat constructor.
  - rewrite (Hcmp x y) by elem_cons. simpl.
    destruct (decide (c x y ≤ 0)) as [Hle|Hgt].
    + exists (x :: y :: l). repeat split; [done|].
      constructor; [by constructor|]. constructor; [done|].
      rewrite Forall_forall in Hall |- *. intros z Hz.
      destruct Hcons as [_ Htrans].
      apply (Htrans x y z); [elem_cons..|done|by apply Hall].
    + destruct IH as (r & Hr & Hperm & Hrs).
      { intros a b Ha Hb. apply Hcmp; elem_cons. }
      { eapply ConsistentOn_subseteq; [|exact Hcons].
        intros z Hz. elem_cons. }
      rewrite Hr. simpl. exists (y :: r). split; [done|]. split.
      * rewrite Hperm. apply Permutation_swap.
      * constructor; [done|]. rewrite Hperm. constructor; [|done].
        destruct (ConsistentOn_total c (x :: y :: l) x y Hcons);
          [elem_cons..|lia|done].
Qed.

Lemma insertionSort_spec : SortSpec insertionSort.
Proof.
  intros cmp c l. induction l as [|x l IH]; intros Hcmp Hcons; simpl.
  - exists []. repeat split; [done|constructor].
  - destruct IH as (sorted & Hs & Hperm & Hsorted).
    { intros a b Ha Hb. apply Hcmp; elem_cons. }
    { eapply ConsistentOn_subseteq; [|exact Hcons]. apply list_subseteq_cons.
      done. }
    rewrite Hs. simpl.
    destruct (insertBy_spec cmp c x sorted) as (r & Hr & Hperm' & Hrs).
    + intros a b Ha Hb. apply Hcmp; by rewrite <- Hperm.
    + eapply ConsistentOn_subseteq; [|exact Hcons]. by rewrite Hperm.
    + done.
    + exists r. split; [done|]. split; [|done]. by rewrite Hperm', Hperm.
Qed.

(** *** What a resolve returns *)

Lemma StronglySorted_of_lookup {A} (R : relation A) (l : list A) :
  (∀ (i j : nat) x y, (i < j)%nat → l !! i = Some x → l !! j = Some y → R x y) →
  StronglySorted R l.
Proof.
  induction l as [|z l IH]; intros H; constructor.
  - apply IH. intros i j x y Hij Hi Hj. by apply (H (S i) (S j) x y); [lia|..].
  - apply Forall_forall. intros y [j Hj]%list_elem_of_lookup.
    by apply (H 0%nat (S j) z y); [lia|..].
Qed.

Lemma StronglySorted_filter {A} (R : relation A) (P : A → Prop)
    `{∀ x, Decision (P x)} (l : list A) :
  StronglySorted R l → StronglySorted R (filter P l).
Proof.
  induction 1 as [|x l Hs IH Hall]; [constructor|].
  rewrite filter_cons. case_decide; [|done].
  constructor; [done|].
  rewrite Forall_forall in Hall |- *.
  intros y [_ Hy]%list_elem_of_filter. by apply Hall.
Qed.

Lemma buildResult_ascending (ed : RuntimeExtensionsEditor) :
  StronglySorted (fun a b => originalIndex a < originalIndex b) (buildResult ed).
Proof.
  apply StronglySorted_of_lookup. intros i j x y Hij Hi Hj.
  apply buildResult_lookup in Hi as (d & _ & ->).
  apply buildResult_lookup in Hj as (d' & _ & ->). simpl. lia.
Qed.

Lemma buildResult_status (ed : RuntimeExtensionsEditor) :
  Forall (fun r => is_Some (status r)) (buildResult ed) ↔
  ∀ d, d ∈ _extensionsDescriptions ed → is_Some (getExtensionsStatus ed !! id d).
Proof.
  rewrite Forall_forall. split.
  - intros Hall d [i Hi]%list_elem_of_lookup.
    apply (Hall (recordAt ed i d)).
    apply list_elem_of_lookup. exists i. apply buildResult_lookup. eauto.
  - intros Hall r (i & d & Hd & ->)%buildResult_elem. simpl.
    apply Hall. by eapply list_elem_of_lookup_2.
Qed.

Lemma buildResult_profileInfo (ed : RuntimeExtensionsEditor)
    (p : IExtensionHostProfile) (r : IRuntimeExtension) :
  _profileInfo ed = Some p → r ∈ buildResult ed → is_Some (profileInfo r).
Proof.
  intros Hp (i & d & _ & ->)%buildResult_elem. simpl. rewrite Hp. simpl. eauto.
Qed.

Lemma hasActivationTimes_spec (r : IRuntimeExtension) :
  hasActivationTimes r ↔
  ∃ s a, status r = Some s ∧ activationTimes s = Some a.
Proof.
  unfold hasActivationTimes. destruct (status r) as [s|]; simpl.
  - rewrite bool_decide_spec. split.
    + intros [a Ha]. eauto.
    + intros (s' & a & [= <-] & Ha). eauto.
  - split; [done|]. by intros (s & a & ? & _).
Qed.

Section Resolve.
Variable Array_sort : SortFn.
Hypothesis host_sort : SortSpec Array_sort.

(** With a trace, the host sort is applied to records that all carry a
    [profileInfo] and returns the sorted permutation. *)
Lemma sort_filtered (ed : RuntimeExtensionsEditor) (p : IExtensionHostProfile)
    (l : list IRuntimeExtension) :
  _profileInfo ed = Some p →
  l ⊆ buildResult ed →
  ∃ out, Array_sort compareByProfile l = Ok out ∧ out ≡ₚ l ∧
         StronglySorted (fun a b => compareKeys a b ≤ 0) out.
Proof.
  intros Hp Hsub. apply host_sort.
  - intros a b Ha Hb. apply compareByProfile_keys;
      eapply buildResult_profileInfo; eauto.
  - apply compareKeys_consistent.
Qed.

Lemma resolve_inv (ed : RuntimeExtensionsEditor) (out : list IRuntimeExtension) :
  _resolveExtensions Array_sort ed = Ok out →
  Forall (fun r => is_Some (status r)) (buildResult ed) ∧
  out ≡ₚ filter hasActivationTimes (buildResult ed) ∧
  match _profileInfo ed with
  | Some _ => StronglySorted (fun a b => compareKeys a b ≤ 0) out
  | None => out = filter hasActivationTimes (buildResult ed)
  end.
Proof.
  unfold _resolveExtensions.
  destruct (filterActivated (buildResult ed)) as [kept|] eqn:Hf; [|done].
  apply filterActivated_inv in Hf as [Hall ->]. simpl.
  destruct (_profileInfo ed) as [p|] eqn:Hp.
  - destruct (sort_filtered ed p (filter hasActivationTimes (buildResult ed)) Hp)
      as (out' & Hout & Hperm & Hsorted).
    { intros r [_ Hr]%list_elem_of_filter. done. }
    rewrite Hout. intros [= <-]. done.
  - intros [= <-]. done.
Qed.

Lemma resolve_returns (ed : RuntimeExtensionsEditor) :
  (∀ d, d ∈ _extensionsDescriptions ed →
        is_Some (getExtensionsStatus ed !! id d)) →
  ∃ out, _resolveExtensions Array_sort ed = Ok out.
Proof.
  intros Hall%buildResult_status. unfold _resolveExtensions.
  rewrite filterActivated_Ok by done. simpl.
  destruct (_profileInfo ed) as [p|] eqn:Hp; [|eauto].
  destruct (sort_filtered ed p (filter hasActivationTimes (buildResult ed)) Hp)
    as (out' & Hout & _).
  { intros r [_ Hr]%list_elem_of_filter. done. }
  eauto.
Qed.

Lemma resolve_elem (ed : RuntimeExtensionsEditor)
    (out : list IRuntimeExtension) (r : IRuntimeExtension) :
  _resolveExtensions Array_sort ed = Ok out →
  r ∈ out ↔ r ∈ buildResult ed ∧ hasActivationTimes r.
Proof.
  intros (_ & Hperm & _)%resolve_inv. rewrite Hperm.
  rewrite list_elem_of_filter. tauto.
Qed.
End Resolve.

Lemma resolve_subseteq (Array_sort : SortFn) (host_sort : SortSpec Array_sort)
    (ed : RuntimeExtensionsEditor) (out : list IRuntimeExtension) :
  _resolveExtensions Array_sort ed = Ok out → out ⊆ buildResult ed.
Proof.
  intros Hres r Hr. by apply (resolve_elem Array_sort host_sort ed out r Hres).
Qed.

Lemma resolve_NoDup (Array_sort : SortFn) (host_sort : SortSpec Array_sort)
    (ed : RuntimeExtensionsEditor) (out : list IRuntimeExtension) :
  _resolveExtensions Array_sort ed = Ok out → NoDup out.
Proof.
  intros (_ & Hperm & _)%resolve_inv; [|done]. rewrite Hperm.
  apply NoDup_filter, buildResult_NoDup.
Qed.




(** C2, as stated, fails: with descriptions [A; B; C] and no trace, where
    [B] has a status without activation times, the record of [C] comes second
    (position 1 of the filtered list) but carries [originalIndex] 2; where
    [B] has no status entry at all, the resolve throws. *)
Lemma resolve_originalIndex_counterexample :
  (∃ out r, _resolveExtensions insertionSort scenarioEditor = Ok out ∧
            out !! 1%nat = Some r ∧ description r = describe "C" ∧
            originalIndex r = 2 ∧ originalIndex r ≠ 1) ∧
  _resolveExtensions insertionSort missingStatusEditor = Throw TypeError.
Proof.
  split; [|reflexivity].
  exists [recordAt scenarioEditor 0 (describe "A");
          recordAt scenarioEditor 2 (describe "C")],
         (recordAt scenarioEditor 2 (describe "C")).
  split; [reflexivity|]. split; [reflexivity|]. split; [reflexivity|].
  split; [reflexivity|]. simpl. lia.
Qed.

(** C2, amended. The [originalIndex] of every output record is the position
    of its description in the editor's description list (before the filter
    and the sort), and no two output records share it; with descriptions
    [A; B; C], no trace, and a status without activation times for [B], the
    resolve returns [A] with [originalIndex] 0 and [C] with [originalIndex]
    2, and [B] is excluded. *)
Theorem resolve_originalIndex (Array_sort : SortFn)
    (host_sort : SortSpec Array_sort) :
  (∀ ed out, _resolveExtensions Array_sort ed = Ok out →
     (∀ r, r ∈ out →
        ∃ i : nat, originalIndex r = Z.of_nat i ∧
                   _extensionsDescriptions ed !! i = Some (description r)) ∧
     NoDup (originalIndex <$> out)) ∧
  _resolveExtensions Array_sort scenarioEditor =
    Ok [recordAt scenarioEditor 0 (describe "A");
        recordAt scenarioEditor 2 (describe "C")].
Proof.
  split; [|reflexivity].
  intros ed out Hres. split.
  - intros r Hr.
    apply (resolve_subseteq _ host_sort _ _ Hres) in Hr.
    apply buildResult_elem in Hr as (i & d & Hd & ->). by exists i.
  - apply NoDup_fmap_2_strong; [|by eapply resolve_NoDup].
    intros a b Ha Hb. apply (buildResult_index_inj ed);
      by apply (resolve_subseteq _ host_sort _ _ Hres).
Qed.

Lemma resolve_originalIndex_witness :
  (∀ r, r ∈ [recordAt profiledEditor 1 (describe "A");
             recordAt profiledEditor 0 (describe "B");
             recordAt profiledEditor 2 (describe "C");
             recordAt profiledEditor 3 (describe "D")] →
     ∃ i : nat, originalIndex r = Z.of_nat i ∧
                _extensionsDescriptions profiledEditor !! i = Some (description r)) ∧
  _resolveExtensions insertionSort scenarioEditor =
    Ok [recordAt scenarioEditor 0 (describe "A");
        recordAt scenarioEditor 2 (describe "C")].
Proof.
  destruct (resolve_originalIndex insertionSort insertionSort_spec)
    as [Hgen Hscenario].
  split; [|exact Hscenario].
  apply (Hgen profiledEditor). vm_compute. reflexivity.
Defined.

(** C4, as stated, fails: a description without a status entry is not
    excluded silently, the resolve throws. *)
Lemma resolve_missing_status_counterexample :
  describe "B" ∈ _extensionsDescriptions missingStatusEditor ∧
  getExtensionsStatus missingStatusEditor !! id (describe "B") = None ∧
  _resolveExtensions insertionSort missingStatusEditor = Throw TypeError.
Proof.
  split; [|split; reflexivity]. simpl. elem_cons.
Qed.

(** C4, amended. When every description has a status entry, the resolve
    returns without an error; a description whose status entry has no
    activation times is left out without an error, and every other
    description is kept; so the output is no longer than the description
    list, and the identifier of every output record has a status entry (with
    activation times). When a description has no status entry at all, the
    resolve throws a [TypeError]. *)
Theorem resolve_excludes_unactivated (Array_sort : SortFn)
    (host_sort : SortSpec Array_sort) (ed : RuntimeExtensionsEditor) :
  ((∀ d, d ∈ _extensionsDescriptions ed →
         is_Some (getExtensionsStatus ed !! id d)) →
   ∃ out, _resolveExtensions Array_sort ed = Ok out) ∧
  (∀ out, _resolveExtensions Array_sort ed = Ok out →
     (length out ≤ length (_extensionsDescriptions ed))%nat ∧
     (∀ r, r ∈ out →
        ∃ s a, getExtensionsStatus ed !! id (description r) = Some s ∧
               status r = Some s ∧ activationTimes s = Some a) ∧
     (∀ (i : nat) d, _extensionsDescriptions ed !! i = Some d →
        (recordAt ed i d ∈ out ↔ isCandidate (getExtensionsStatus ed) d))) ∧
  ((∃ d, d ∈ _extensionsDescriptions ed ∧
         getExtensionsStatus ed !! id d = None) →
   _resolveExtensions Array_sort ed = Throw TypeError).
Proof.
  split; [by apply resolve_returns|]. split.
  - intros out Hres.
    destruct (resolve_inv _ host_sort _ _ Hres) as (_ & Hperm & _).
    split; [|split].
    + rewrite Hperm, <- buildResult_length. apply length_filter.
    + intros r Hr.
      apply (resolve_elem _ host_sort _ _ r Hres) in Hr as [Hin Hact].
      apply hasActivationTimes_spec in Hact as (s & a & Hs & Ha).
      apply buildResult_elem in Hin as (i & d & _ & ->). simpl in *.
      by exists s, a.
    + intros i d Hd.
      rewrite (resolve_elem _ host_sort _ _ _ Hres).
      assert (Hin : recordAt ed i d ∈ buildResult ed).
      { apply list_elem_of_lookup. exists i. apply buildResult_lookup. eauto. }
      unfold hasActivationTimes, isCandidate. simpl. tauto.
  - intros (d & [i Hi]%list_elem_of_lookup & Hnone).
    unfold _resolveExtensions. rewrite filterActivated_Throw; [done|].
    apply Exists_exists. exists (recordAt ed i d). split; [|done].
    apply list_elem_of_lookup. exists i. apply buildResult_lookup. eauto.
Qed.

Lemma resolve_excludes_unactivated_witness :
  (∃ out, _resolveExtensions insertionSort scenarioEditor = Ok out) ∧
  _resolveExtensions insertionSort missingStatusEditor = Throw TypeError.
Proof.
  split.
  - apply (resolve_excludes_unactivated insertionSort insertionSort_spec
             scenarioEditor).
    intros d Hd. simpl in Hd.
    repeat (apply elem_of_cons in Hd as [->|Hd]);
      [eexists; reflexivity..|by apply elem_of_nil in Hd].
  - apply (resolve_excludes_unactivated insertionSort insertionSort_spec
             missingStatusEditor).
    exists (describe "B"). split; [simpl; elem_cons|reflexivity].
Defined.

(** *** Without a trace *)

Lemma candidates_of_imap (sm : gmap string IExtensionsStatus)
    (ds : list IExtensionDescription) :
  ∀ f : nat → IExtensionDescription → IRuntimeExtension,
    (∀ i d, description (f i d) = d ∧ status (f i d) = sm !! id d) →
    description <$> filter hasActivationTimes (imap f ds) =
    filter (isCandidate sm) ds.
Proof.
  induction ds as [|d ds IH]; intros f Hf; [done|].
  rewrite imap_cons, !filter_cons.
  destruct (Hf 0%nat d) as [Hd Hs].
  assert (Hsame : hasActivationTimes (f 0%nat d) = isCandidate sm d).
  { unfold hasActivationTimes, isCandidate. by rewrite Hs. }
  rewrite Hsame.
  destruct (isCandidate sm d); simpl.
  - rewrite Hd. f_equal. apply IH. intros i d'. apply Hf.
  - apply IH. intros i d'. apply Hf.
Qed.

Lemma filter_imap_withoutMarketplace (ds : list IExtensionDescription) :
  ∀ f g : nat → IExtensionDescription → IRuntimeExtension,
    (∀ i d, withoutMarketplace (f i d) = withoutMarketplace (g i d)) →
    withoutMarketplace <$> filter hasActivationTimes (imap f ds) =
    withoutMarketplace <$> filter hasActivationTimes (imap g ds).
Proof.
  induction ds as [|d ds IH]; intros f g Hfg; [done|].
  rewrite !imap_cons, !filter_cons.
  assert (Hsame : hasActivationTimes (f 0%nat d) = hasActivationTimes (g 0%nat d)).
  { unfold hasActivationTimes.
    by rewrite (f_equal status (Hfg 0%nat d) : status (f 0%nat d) = status (g 0%nat d)). }
  rewrite Hsame.
  destruct (hasActivationTimes (g 0%nat d)); simpl.
  - rewrite (Hfg 0%nat d). f_equal. apply IH. intros i d'. apply Hfg.
  - apply IH. intros i d'. apply Hfg.
Qed.

Lemma resolve_without_trace_eq (Array_sort : SortFn)
    (ed : RuntimeExtensionsEditor) :
  _profileInfo ed = None →
  _resolveExtensions Array_sort ed = filterActivated (buildResult ed).
Proof.
  intros Hp. unfold _resolveExtensions. rewrite Hp.
  by destruct (filterActivated (buildResult ed)).
Qed.

(** C6. Without a trace, whatever the host sort is, every record a resolve
    returns has a null [profileInfo]; the output is the list of candidates in
    the order of the descriptions, so in strictly ascending [originalIndex];
    and it does not depend on the marketplace snapshot nor on anything of the
    status map but its lookups. *)
Theorem resolve_without_trace (Array_sort : SortFn)
    (ed : RuntimeExtensionsEditor) (out : list IRuntimeExtension) :
  _profileInfo ed = None →
  _resolveExtensions Array_sort ed = Ok out →
  (∀ r, r ∈ out → profileInfo r = None) ∧
  out = filter hasActivationTimes (buildResult ed) ∧
  description <$> out =
    filter (isCandidate (getExtensionsStatus ed)) (_extensionsDescriptions ed) ∧
  (∀ (i j : nat) a b, (i < j)%nat → out !! i = Some a → out !! j = Some b →
     originalIndex a < originalIndex b) ∧
  (∀ l', ∃ out', _resolveExtensions Array_sort (withLocal ed l') = Ok out' ∧
                 withoutMarketplace <$> out' = withoutMarketplace <$> out) ∧
  (∀ sm, (∀ k, sm !! k = getExtensionsStatus ed !! k) →
     _resolveExtensions Array_sort
       {| _profileInfo := _profileInfo ed;
          _elements := _elements ed;
          _extensionsDescriptions := _extensionsDescriptions ed;
          local := local ed;
          getExtensionsStatus := sm |} = Ok out).
Proof.
  intros Hp Hres.
  pose proof Hres as Hres0.
  rewrite resolve_without_trace_eq in Hres by done.
  apply filterActivated_inv in Hres as [Hall ->].
  split; [|split; [done|split; [|split; [|split]]]].
  - intros r [_ Hr]%list_elem_of_filter.
    apply buildResult_elem in Hr as (i & d & _ & ->). simpl. by rewrite Hp.
  - rewrite buildResult_imap. apply candidates_of_imap. by intros i d.
  - intros i j a b Hij Hi Hj.
    apply (StronglySorted_lookup
             (fun a b => originalIndex a < originalIndex b)
             (filter hasActivationTimes (buildResult ed)) i j a b);
      [|done..].
    apply StronglySorted_filter, buildResult_ascending.
  - intros l'. eexists. split.
    + rewrite resolve_without_trace_eq by done.
      apply filterActivated_Ok. apply buildResult_status.
      exact (proj1 (buildResult_status ed) Hall).
    + rewrite !buildResult_imap. by apply filter_imap_withoutMarketplace.
  - intros sm Hsm. apply map_eq in Hsm. subst sm. by destruct ed.
Qed.

Lemma resolve_without_trace_witness :
  _resolveExtensions insertionSort scenarioEditor =
    Ok [recordAt scenarioEditor 0 (describe "A");
        recordAt scenarioEditor 2 (describe "C")] ∧
  (∀ r, r ∈ [recordAt scenarioEditor 0 (describe "A");
             recordAt scenarioEditor 2 (describe "C")] →
        profileInfo r = None).
Proof.
  assert (Hres : _resolveExtensions insertionSort scenarioEditor =
    Ok [recordAt scenarioEditor 0 (describe "A");
        recordAt scenarioEditor 2 (describe "C")]) by reflexivity.
  split; [exact Hres|].
  apply (resolve_without_trace insertionSort scenarioEditor _ eq_refl Hres).
Defined.

(** ** The profile session action *)

Lemma settle_single (r : Request) : settle r [r] = [].
Proof. simpl. by rewrite decide_True. Qed.

Lemma newAction_coherent (parent : RuntimeExtensionsEditor) :
  Coherent (newAction parent).
Proof. by split. Qed.

Lemma run_coherent (w : World) : Coherent w → Coherent (snd (run w)).
Proof.
  destruct w as [session state c l parent pending log errs pub].
  unfold Coherent. action_compute.
  destruct state.
  - intros [-> ->]. done.
  - done.
  - intros [[s ->] ->]. eauto.
  - done.
Qed.

(** The stop callback on a world whose pending list is already settled:
    when the refresh of the parent editor throws, the callback stops there
    and the state stays what it was. *)
Lemma onStopFulfilled_fields (Array_sort : SortFn)
    (result : IExtensionHostProfile) (w : World) :
  let w' := snd (onStopFulfilled Array_sort result w) in
  _profileSession w' = _profileSession w ∧
  outstanding w' = outstanding w ∧
  issued w' = issued w ∧
  unexpectedErrors w' = unexpectedErrors w ∧
  published w' = published w ++ [result] ∧
  (_state w' = ProfileSessionState.None ∨ _state w' = _state w).
Proof.
  destruct w as [session state c l parent pending log errs pub].
  unfold onStopFulfilled, parent_setProfileInfo, setProfileInfo,
    _updateExtensions.
  action_compute.
  destruct (_resolveExtensions Array_sort (set_profileInfo (Some result) parent));
    destruct session; simpl; auto 10.
Qed.

Lemma step_coherent (Array_sort : SortFn) (w w' : World) (e : Event) :
  Coherent w → step Array_sort w e = Some w' → Coherent w'.
Proof.
  intros Hw. destruct e as [|value|err|s result|s err]; simpl.
  - intros [= <-]. by apply run_coherent.
  - destruct (decide (StartRequest ∈ outstanding w)) as [Hin|]; [|done].
    intros [= <-]. revert Hin Hw.
    destruct w as [session state c l parent pending log errs pub].
    unfold Coherent. action_compute.
    destruct state; intros Hin (Hs & Hp); subst;
      try (by apply elem_of_nil in Hin).
    + rewrite ?settle_single. split; [eauto|done].
    + destruct Hp as [->|[s ->]]; [by apply elem_of_nil in Hin|].
      apply list_elem_of_singleton in Hin. done.
  - destruct (decide (StartRequest ∈ outstanding w)) as [Hin|]; [|done].
    intros [= <-]. revert Hin Hw.
    destruct w as [session state c l parent pending log errs pub].
    unfold Coherent. action_compute.
    destruct state; intros Hin (Hs & Hp); subst;
      try (by apply elem_of_nil in Hin).
    + by rewrite ?settle_single.
    + destruct Hp as [->|[s ->]]; [by apply elem_of_nil in Hin|].
      apply list_elem_of_singleton in Hin. done.
  - destruct (decide (StopRequest s ∈ outstanding w)) as [Hin|]; [|done].
    intros [= <-].
    destruct (onStopFulfilled_fields Array_sort result
                (settled (StopRequest s) w)) as (Hs & Hp & _ & _ & _ & Hst).
    revert Hin Hw Hs Hp Hst.
    generalize (snd (onStopFulfilled Array_sort result
                       (settled (StopRequest s) w))).
    destruct w as [session state c l parent pending log errs pub].
    intros [session' state' c' l' parent' pending' log' errs' pub'].
    unfold Coherent. action_compute.
    destruct state; intros Hin (Hs0 & Hp0) -> -> Hst; subst;
      try (by apply elem_of_nil in Hin).
    + apply list_elem_of_singleton in Hin. done.
    + destruct Hp0 as [->|[s' ->]]; [by apply elem_of_nil in Hin|].
      apply list_elem_of_singleton in Hin as [= ->].
      rewrite settle_single. destruct Hst as [-> | ->]; auto.
  - destruct (decide (StopRequest s ∈ outstanding w)) as [Hin|]; [|done].
    intros [= <-]. revert Hin Hw.
    destruct w as [session state c l parent pending log errs pub].
    unfold Coherent. action_compute.
    destruct state; intros Hin (Hs & Hp); subst;
      try (by apply elem_of_nil in Hin).
    + apply list_elem_of_singleton in Hin. done.
    + destruct Hp as [->|[s' ->]]; [by apply elem_of_nil in Hin|].
      apply list_elem_of_singleton in Hin as [= ->].
      rewrite ?settle_single. auto.
Qed.

Lemma steps_coherent (Array_sort : SortFn) (evs : list Event) :
  ∀ w w', Coherent w → steps Array_sort w evs = Some w' → Coherent w'.
Proof.
  induction evs as [|e evs IH]; intros w w' Hw; simpl.
  - by intros [= <-].
  - destruct (step Array_sort w e) as [w1|] eqn:He; [|done].
    apply IH. by eapply step_coherent.
Qed.

(** Why [Stopping] may have nothing pending: the stop succeeded, but the
    refresh of the parent editor threw inside the success callback (here a
    description has no status entry), so [_setState(None)] was never
    reached. *)
Example stop_success_with_throwing_refresh :
  ∃ w, steps insertionSort (newAction missingStatusEditor)
         [EvRun; EvStartResolved 7%nat; EvRun; EvStopResolved 7%nat sampleTrace]
       = Some w ∧
       _state w = ProfileSessionState.Stopping ∧
       _profileSession w = None ∧
       outstanding w = [] ∧
       published w = [sampleTrace] ∧
       _profileInfo (_parentEditor w) = Some sampleTrace ∧
       _elements (_parentEditor w) = None.
Proof. eexists. split; [vm_compute; reflexivity|]. repeat split. Qed.

Lemma reachable_coherent (Array_sort : SortFn)
    (parent : RuntimeExtensionsEditor) (evs : list Event) (w : World) :
  steps Array_sort (newAction parent) evs = Some w → Coherent w.
Proof. apply steps_coherent, newAction_coherent. Qed.

(** C7. In every state the action can reach through [run()] calls and
    promise settlements: at most one request is pending; a [run()] that
    arrives in [Starting] or [Stopping] changes nothing and issues nothing;
    a [run()] issues a start request exactly when the state is [None]
    (idle), a stop request exactly when it is [Running] (on the stored
    handle), and never more than one request; it does not throw; and the
    callbacks issue no request. *)
Theorem run_is_guarded (Array_sort : SortFn)
    (parent : RuntimeExtensionsEditor) (evs : list Event) (w : World) :
  steps Array_sort (newAction parent) evs = Some w →
  (length (outstanding w) ≤ 1)%nat ∧
  (_state w = ProfileSessionState.Starting ∨
   _state w = ProfileSessionState.Stopping → run w = (Ok tt, w)) ∧
  (∃ new, fst (run w) = Ok tt ∧
          issued (snd (run w)) = issued w ++ new ∧
          outstanding (snd (run w)) = outstanding w ++ new ∧
          (length new ≤ 1)%nat ∧
          (StartRequest ∈ new ↔ _state w = ProfileSessionState.None) ∧
          (∀ s, StopRequest s ∈ new ↔
                _state w = ProfileSessionState.Running ∧
                _profileSession w = Some s)) ∧
  (∀ e w', e ≠ EvRun → step Array_sort w e = Some w' → issued w' = issued w).
Proof.
  intros Hw%reachable_coherent. split; [|split; [|split]].
  - revert Hw. unfold Coherent.
    destruct (_state w).
    + intros [_ ->]. simpl. lia.
    + intros [_ ->]. simpl. lia.
    + intros [_ ->]. simpl. lia.
    + intros [_ [->|[s ->]]]; simpl; lia.
  - revert Hw. destruct w as [session state c l parent' pending log errs pub].
    action_compute. by intros _ [->| ->].
  - revert Hw. destruct w as [session state c l parent' pending log errs pub].
    unfold Coherent. action_compute. destruct state.
    + intros [-> ->]. exists [StartRequest].
      do 3 (split; [done|]). split; [simpl; lia|]. split; [split|intros s; split].
      * intros _. done.
      * intros _. by apply list_elem_of_singleton.
      * by intros ?%list_elem_of_singleton.
      * by intros [? _].
    + intros [-> ->]. exists [].
      rewrite !app_nil_r.
      do 3 (split; [done|]). split; [simpl; lia|]. split; [split|intros s; split].
      * by intros ?%elem_of_nil.
      * done.
      * by intros ?%elem_of_nil.
      * by intros [? _].
    + intros [[s ->] ->]. exists [StopRequest s].
      do 3 (split; [done|]). split; [simpl; lia|]. split; [split|intros s'; split].
      * by intros ?%list_elem_of_singleton.
      * done.
      * by intros [= ->]%list_elem_of_singleton.
      * intros [_ [= ->]]. by apply list_elem_of_singleton.
    + intros [-> Hp]. exists [].
      rewrite !app_nil_r.
      do 3 (split; [done|]). split; [simpl; lia|]. split; [split|intros s'; split].
      * by intros ?%elem_of_nil.
      * done.
      * by intros ?%elem_of_nil.
      * by intros [? _].
  - intros e w' Hne. destruct e as [|value|err|s result|s err]; [done|..];
      simpl; case_decide; try done; intros [= <-].
    + by destruct w.
    + by destruct w as [[] ? ? ? ? ? ? ? ?].
    + by destruct (onStopFulfilled_fields Array_sort result
                     (settled (StopRequest s) w)) as (_ & _ & -> & _).
    + by destruct w as [[] ? ? ? ? ? ? ? ?].
Qed.

Lemma run_is_guarded_witness :
  ∃ w, steps insertionSort (newAction emptyEditor) [EvRun; EvRun] = Some w ∧
       _state w = ProfileSessionState.Starting ∧
       issued w = [StartRequest] ∧
       run w = (Ok tt, w).
Proof.
  eexists. split; [reflexivity|]. split; [reflexivity|]. split; [reflexivity|].
  apply (run_is_guarded insertionSort emptyEditor [EvRun; EvRun] _ eq_refl).
  left. reflexivity.
Defined.

(** C8. When the pending start request fails, the callback puts the action
    back to [None] (idle), hands the error to [onUnexpectedError], issues no
    new request and publishes nothing; when the pending stop request fails,
    the same holds: the state is [None], the error is reported, and
    [setProfileInfo] is not called, the parent editor is left as it was. *)
Theorem failure_returns_to_idle (Array_sort : SortFn)
    (parent : RuntimeExtensionsEditor) (evs : list Event) (w : World)
    (err : string) :
  steps Array_sort (newAction parent) evs = Some w →
  (StartRequest ∈ outstanding w →
     ∃ w', step Array_sort w (EvStartRejected err) = Some w' ∧
           _state w' = ProfileSessionState.None ∧
           _profileSession w' = None ∧
           unexpectedErrors w' = unexpectedErrors w ++ [err] ∧
           issued w' = issued w ∧ outstanding w' = [] ∧
           published w' = published w ∧
           _parentEditor w' = _parentEditor w) ∧
  (∀ s, StopRequest s ∈ outstanding w →
     ∃ w', step Array_sort w (EvStopRejected s err) = Some w' ∧
           _state w' = ProfileSessionState.None ∧
           _profileSession w' = None ∧
           unexpectedErrors w' = unexpectedErrors w ++ [err] ∧
           issued w' = issued w ∧ outstanding w' = [] ∧
           published w' = published w ∧
           _parentEditor w' = _parentEditor w).
Proof.
  intros Hw%reachable_coherent. split.
  - intros Hin. simpl. rewrite decide_True by done. eexists. split; [done|].
    revert Hin Hw. destruct w as [session state c l parent' pending log errs pub].
    unfold Coherent. action_compute.
    destruct state; intros Hin (Hs & Hp); subst;
      try (by apply elem_of_nil in Hin).
    + done.
    + destruct Hp as [->|[s ->]]; [by apply elem_of_nil in Hin|].
      by apply list_elem_of_singleton in Hin.
  - intros s Hin. simpl. rewrite decide_True by done. eexists. split; [done|].
    revert Hin Hw. destruct w as [session state c l parent' pending log errs pub].
    unfold Coherent. action_compute.
    destruct state; intros Hin (Hs & Hp); subst;
      try (by apply elem_of_nil in Hin).
    + by apply list_elem_of_singleton in Hin.
    + destruct Hp as [->|[s' ->]]; [by apply elem_of_nil in Hin|].
      apply list_elem_of_singleton in Hin as [= ->].
      by rewrite settle_single.
Qed.

Lemma failure_returns_to_idle_witness :
  (∃ w', steps insertionSort (newAction emptyEditor)
           [EvRun; EvStartRejected "denied"] = Some w' ∧
         _state w' = ProfileSessionState.None ∧
         unexpectedErrors w' = ["denied"%string] ∧ issued w' = [StartRequest]) ∧
  (∃ w', steps insertionSort (newAction emptyEditor)
           [EvRun; EvStartResolved 7%nat; EvRun; EvStopRejected 7%nat "lost"] = Some w' ∧
         _state w' = ProfileSessionState.None ∧
         published w' = [] ∧ _parentEditor w' = emptyEditor).
Proof.
  split.
  - destruct (failure_returns_to_idle insertionSort emptyEditor [EvRun]
                (snd (run (newAction emptyEditor))) "denied" eq_refl)
      as [Hstart _].
    destruct Hstart as (w' & Hstep & Hstate & _ & Herrs & Hissued & _).
    { apply list_elem_of_singleton. reflexivity. }
    exists w'. split; [exact Hstep|]. split; [exact Hstate|].
    split; [exact Herrs|exact Hissued].
  - destruct (steps insertionSort (newAction emptyEditor)
                [EvRun; EvStartResolved 7%nat; EvRun])
      as [w|] eqn:Hw; [|discriminate Hw].
    destruct (failure_returns_to_idle insertionSort emptyEditor
                [EvRun; EvStartResolved 7%nat; EvRun] w "lost" Hw) as [_ Hstop].
    injection Hw as <-.
    destruct (Hstop 7%nat) as (w' & Hstep & Hstate & _ & _ & _ & _ & Hpub & Hed).
    { apply list_elem_of_singleton. reflexivity. }
    exists w'. split; [exact Hstep|]. split; [exact Hstate|].
    split; [exact Hpub|exact Hed].
Defined.

(** C10. In every state the action can reach, between two events, the
    stored session handle is non-null exactly when the state is [Running];
    in [Stopping] the handle is already null and a [run()] issues no
    request, so the handle cannot be stopped again. *)
Theorem session_iff_running (Array_sort : SortFn)
    (parent : RuntimeExtensionsEditor) (evs : list Event) (w : World) :
  steps Array_sort (newAction parent) evs = Some w →
  (is_Some (_profileSession w) ↔ _state w = ProfileSessionState.Running) ∧
  (_state w = ProfileSessionState.Stopping →
     _profileSession w = None ∧ issued (snd (run w)) = issued w).
Proof.
  intros Hw%reachable_coherent. revert Hw.
  destruct w as [session state c l parent' pending log errs pub].
  unfold Coherent. action_compute.
  destruct state; intros [Hs Hp]; subst; (split; [split|]); try done;
    by intros [? ?].
Qed.

Lemma session_iff_running_witness :
  ∃ w, steps insertionSort (newAction emptyEditor)
         [EvRun; EvStartResolved 7%nat; EvRun] = Some w ∧
       _state w = ProfileSessionState.Stopping ∧
       _profileSession w = None.
Proof.
  eexists. split; [reflexivity|]. split; [reflexivity|].
  apply (session_iff_running insertionSort emptyEditor
           [EvRun; EvStartResolved 7%nat; EvRun] _ eq_refl).
  reflexivity.
Defined.

(** ** More on the segmenter *)

Lemma groupSegments_lookup (p : IExtensionHostProfile) (lbl : string) :
  default [] (groupSegments (Some p) !! lbl) =
  flatten (intervalsOf lbl (startTime p) (pairsFrom (ids p) 0 (deltas p))).
Proof.
  unfold groupSegments. by rewrite segmentLoop_lookup, lookup_empty.
Qed.

Lemma extensionProfileInfo_pairs (p : IExtensionHostProfile)
    (d : IExtensionDescription) :
  extensionProfileInfo (Some p) (groupSegments (Some p)) d =
  Some {| segments :=
            flatten (intervalsOf (id d) (startTime p)
                       (pairsFrom (ids p) 0 (deltas p)));
          totalTime :=
            sumLengths (intervalsOf (id d) (startTime p)
                          (pairsFrom (ids p) 0 (deltas p))) |}.
Proof.
  unfold extensionProfileInfo.
  by rewrite groupSegments_lookup, sumSegments_flatten.
Qed.

Lemma sumLengths_intervalsOf (lbl : string) (pairs : list (string * Z)) :
  ∀ cur, sumLengths (intervalsOf lbl cur pairs) = sumZ (labelDeltas lbl pairs).
Proof.
  induction pairs as [|[l delta] pairs IH]; intros cur; simpl; [done|].
  case_decide; simpl; rewrite IH; lia.
Qed.

Lemma length_flatten_intervalsOf (lbl : string) (pairs : list (string * Z)) :
  ∀ cur, length (flatten (intervalsOf lbl cur pairs)) =
         (2 * length (labelDeltas lbl pairs))%nat.
Proof.
  induction pairs as [|[l delta] pairs IH]; intros cur; simpl; [done|].
  case_decide; simpl; rewrite IH; lia.
Qed.

(** X2. Every trace entry of an extension gives one segment of its own:
    the segment array has two numbers per entry, and consecutive entries of
    the same extension are not merged into one segment. *)
Theorem one_segment_per_entry (p : IExtensionHostProfile)
    (pairs : list (string * Z)) (d : IExtensionDescription)
    (info : IExtensionProfileInformation) :
  ids p = pairs.*1 →
  deltas p = pairs.*2 →
  extensionProfileInfo (Some p) (groupSegments (Some p)) d = Some info →
  length (segments info) = (2 * length (labelDeltas (id d) pairs))%nat.
Proof.
  intros Hids Hdeltas. rewrite extensionProfileInfo_pairs.
  rewrite Hids, Hdeltas, pairsFrom_of_pairs.
  intros [= <-]. simpl. apply length_flatten_intervalsOf.
Qed.

Lemma one_segment_per_entry_witness :
  ∃ info, extensionProfileInfo
            (Some {| startTime := 100; endTime := 130;
                     deltas := [10; 20]; ids := ["A"; "A"]%string |})
            (groupSegments
               (Some {| startTime := 100; endTime := 130;
                        deltas := [10; 20]; ids := ["A"; "A"]%string |}))
            (describe "A") = Some info ∧
          segments info = [100; 110; 110; 130] ∧
          length (segments info) = 4%nat.
Proof.
  eexists. split; [reflexivity|]. split; [reflexivity|].
  apply (one_segment_per_entry
           {| startTime := 100; endTime := 130;
              deltas := [10; 20]; ids := ["A"; "A"]%string |}
           [("A", 10); ("A", 20)]%string (describe "A") _
           eq_refl eq_refl eq_refl).
Defined.

Lemma sumZ_nonneg (l : list Z) : Forall (fun x => 0 ≤ x) l → 0 ≤ sumZ l.
Proof. induction 1; simpl; lia. Qed.

Lemma intervalsOf_within (lbl : string) (pairs : list (string * Z)) :
  Forall (fun delta => 0 ≤ delta) pairs.*2 →
  ∀ cur, Forall (fun t => cur ≤ t ≤ cur + sumZ pairs.*2)
                (flatten (intervalsOf lbl cur pairs)).
Proof.
  induction pairs as [|[l delta] pairs IH]; intros Hpos cur; simpl; [constructor|].
  simpl in Hpos. apply Forall_cons in Hpos as [Hd Hpos].
  pose proof (sumZ_nonneg _ Hpos) as Hsum.
  assert (Hrest : Forall (fun t => cur ≤ t ≤ cur + (delta + sumZ pairs.*2))
                         (flatten (intervalsOf lbl (cur + delta) pairs))).
  { eapply Forall_impl; [apply (IH Hpos (cur + delta))|]. simpl. intros; lia. }
  case_decide; simpl; [|done].
  constructor; [lia|]. constructor; [lia|done].
Qed.

Lemma pairsFrom_snd (idsArr : list string) (rest : list Z) :
  ∀ i, (pairsFrom idsArr i rest).*2 = rest.
Proof.
  induction rest as [|delta rest IH]; intros i; simpl; [done|]. by rewrite IH.
Qed.

(** In exact arithmetic, with non-negative deltas that sum to
    [endTime - startTime], every segment boundary lies between [startTime]
    and [endTime]. *)
Lemma groupSegments_within (p : IExtensionHostProfile) (lbl : string) :
  Forall (fun delta => 0 ≤ delta) (deltas p) →
  sumZ (deltas p) = endTime p - startTime p →
  Forall (fun t => startTime p ≤ t ≤ endTime p)
         (default [] (groupSegments (Some p) !! lbl)).
Proof.
  intros Hpos Hsum. rewrite groupSegments_lookup.
  eapply Forall_impl.
  - apply intervalsOf_within. by rewrite pairsFrom_snd.
  - simpl. intros t. rewrite pairsFrom_snd. lia.
Qed.

Lemma pairsFrom_beyond (idsArr : list string) (rest : list Z) :
  ∀ i, (length idsArr ≤ i)%nat →
       pairsFrom idsArr i rest = (fun delta => ("undefined"%string, delta)) <$> rest.
Proof.
  induction rest as [|delta rest IH]; intros i Hi; simpl; [done|].
  unfold idAt at 1. rewrite lookup_ge_None_2 by done. simpl.
  f_equal. apply IH. lia.
Qed.

Lemma pairsFrom_split (idsArr : list string) (rest : list Z) :
  ∀ i, pairsFrom idsArr i rest =
       zip (drop i idsArr) rest ++
       ((fun delta => ("undefined"%string, delta)) <$>
          drop (length idsArr - i) rest).
Proof.
  induction rest as [|delta rest IH]; intros i; simpl.
  - rewrite drop_nil. by destruct (drop i idsArr).
  - destruct (decide (i < length idsArr)%nat) as [Hlt|Hge].
    + destruct (lookup_lt_is_Some_2 idsArr i Hlt) as [x Hx].
      rewrite (drop_S _ _ _ Hx). simpl.
      unfold idAt at 1. rewrite Hx. simpl.
      replace (length idsArr - i)%nat with (S (length idsArr - S i)) by lia.
      simpl. f_equal. apply IH.
    + rewrite drop_ge by lia.
      replace (length idsArr - i)%nat with 0%nat by lia. simpl.
      unfold idAt at 1. rewrite lookup_ge_None_2 by lia. simpl.
      f_equal. rewrite pairsFrom_beyond by lia. done.
Qed.

Lemma labelDeltas_app (lbl : string) (a b : list (string * Z)) :
  labelDeltas lbl (a ++ b) = labelDeltas lbl a ++ labelDeltas lbl b.
Proof.
  induction a as [|[l delta] a IH]; simpl; [done|].
  case_decide; simpl; by rewrite IH.
Qed.

Lemma labelDeltas_absent (lbl : string) (pairs : list (string * Z)) :
  lbl ∉ pairs.*1 → labelDeltas lbl pairs = [].
Proof.
  induction pairs as [|[l delta] pairs IH]; simpl; [done|].
  intros [Hne Hnot]%not_elem_of_cons. rewrite decide_False by done. by apply IH.
Qed.

Lemma labelDeltas_all (lbl : string) (l : list Z) :
  labelDeltas lbl ((fun delta => (lbl, delta)) <$> l) = l.
Proof.
  induction l as [|x l IH]; [done|]. rewrite fmap_cons. simpl.
  rewrite decide_True by done. by rewrite IH.
Qed.

Lemma sumZ_app (a b : list Z) : sumZ (a ++ b) = sumZ a + sumZ b.
Proof. induction a as [|x a IH]; simpl; [done|]. rewrite IH. lia. Qed.

(** In exact arithmetic the deltas past the end of [ids] are booked under
    the property name ["undefined"]. *)
Lemma undefined_profileInfo (p : IExtensionHostProfile)
    (info : IExtensionProfileInformation) :
  "undefined"%string ∉ ids p →
  extensionProfileInfo (Some p) (groupSegments (Some p))
    (describe "undefined") = Some info →
  totalTime info = sumZ (drop (length (ids p)) (deltas p)) ∧
  length (segments info) =
    (2 * (length (deltas p) - length (ids p)))%nat.
Proof.
  intros Hnot. rewrite extensionProfileInfo_pairs. intros [= <-]. simpl.
  rewrite sumLengths_intervalsOf, length_flatten_intervalsOf.
  rewrite pairsFrom_split, drop_0, Nat.sub_0_r, labelDeltas_app.
  rewrite (labelDeltas_absent _ (zip _ _)).
  - rewrite app_nil_l, labelDeltas_all, length_drop. done.
  - intros Hin. apply Hnot.
    apply list_elem_of_fmap in Hin as ([l delta] & -> & Hin).
    by apply elem_of_zip_l in Hin.
Qed.

(** ** More on the resolver *)

Lemma marketplace_foldl_lookup (l : list IExtension.t) (k : string) :
  ∀ m : gmap string IExtension.t,
    foldl (fun m extension => <[IExtension.id extension := extension]> m) m l !! k =
    match last (filter (fun e => IExtension.id e = k) l) with
    | Some e => Some e
    | None => m !! k
    end.
Proof.
  induction l as [|e l IH]; intros m; simpl; [done|].
  rewrite IH, filter_cons. case_decide as Hk.
  - rewrite last_cons. destruct (last (filter _ l)); [done|].
    subst k. by rewrite lookup_insert_eq.
  - destruct (last (filter _ l)); [done|]. by rewrite lookup_insert_ne.
Qed.

Lemma marketplaceMapOf_lookup (l : list IExtension.t) (k : string) :
  marketplaceMapOf l !! k = last (filter (fun e => IExtension.id e = k) l).
Proof.
  unfold marketplaceMapOf. rewrite marketplace_foldl_lookup.
  by destruct (last _).
Qed.

(** X5. The marketplace entry of a row is the last extension of the
    marketplace snapshot that has the row's identifier (a later duplicate
    overwrites an earlier one), and it is undefined when the snapshot has no
    extension with that identifier. *)
Theorem marketplaceInfo_is_last_match (Array_sort : SortFn)
    (host_sort : SortSpec Array_sort) (ed : RuntimeExtensionsEditor)
    (out : list IRuntimeExtension) (r : IRuntimeExtension) :
  _resolveExtensions Array_sort ed = Ok out →
  r ∈ out →
  marketplaceInfo r =
    last (filter (fun e => IExtension.id e = id (description r)) (local ed)) ∧
  (marketplaceInfo r = None ↔
   ∀ e, e ∈ local ed → IExtension.id e ≠ id (description r)).
Proof.
  intros Hres Hr.
  apply (resolve_subseteq _ host_sort _ _ Hres) in Hr.
  apply buildResult_elem in Hr as (i & d & _ & ->). simpl.
  rewrite marketplaceMapOf_lookup. split; [done|].
  rewrite last_None. split.
  - intros Hnil e He Hid.
    assert (e ∈ filter (fun e => IExtension.id e = id d) (local ed))
      by (by apply list_elem_of_filter).
    rewrite Hnil in H. by apply elem_of_nil in H.
  - intros Hall.
    destruct (filter (fun e => IExtension.id e = id d) (local ed))
      as [|e l] eqn:Hf; [done|].
    assert (He : e ∈ filter (fun e => IExtension.id e = id d) (local ed))
      by (rewrite Hf; by left).
    apply list_elem_of_filter in He as [Hid He]. by destruct (Hall e He).
Qed.

Lemma marketplaceInfo_is_last_match_witness :
  _resolveExtensions insertionSort marketEditor =
    Ok [recordAt marketEditor 0 (describe "A");
        recordAt marketEditor 1 (describe "B");
        recordAt marketEditor 2 (describe "C")] ∧
  marketplaceInfo (recordAt marketEditor 0 (describe "A")) =
    last (filter (fun e => IExtension.id e = "A"%string)
            [marketA1; marketC; marketA2]).
Proof.
  assert (Hres : _resolveExtensions insertionSort marketEditor =
    Ok [recordAt marketEditor 0 (describe "A");
        recordAt marketEditor 1 (describe "B");
        recordAt marketEditor 2 (describe "C")]) by reflexivity.
  split; [exact Hres|].
  apply (marketplaceInfo_is_last_match insertionSort insertionSort_spec
           marketEditor _ (recordAt marketEditor 0 (describe "A")) Hres).
  by left.
Defined.


Lemma hasActivationTimes_withoutProfile (r : IRuntimeExtension) :
  hasActivationTimes (withoutProfile r) = hasActivationTimes r.
Proof. reflexivity. Qed.

Lemma filter_withoutProfile (l : list IRuntimeExtension) :
  withoutProfile <$> filter hasActivationTimes l =
  filter hasActivationTimes (withoutProfile <$> l).
Proof.
  induction l as [|r l IH]; [done|].
  rewrite fmap_cons, !filter_cons, hasActivationTimes_withoutProfile.
  case_decide; [rewrite fmap_cons|]; by rewrite IH.
Qed.

Lemma buildResult_without_profile (ed : RuntimeExtensionsEditor) :
  buildResult (set_profileInfo None ed) = withoutProfile <$> buildResult ed.
Proof.
  apply list_eq. intros i.
  rewrite list_lookup_fmap, !buildResult_imap, !list_lookup_imap. simpl.
  by destruct (_extensionsDescriptions ed !! i).
Qed.

(** X6. A trace never adds or drops a row: when a resolve with a trace
    returns, the resolve of the same editor without the trace returns too,
    and its rows are the rows of the former without their profile
    information, up to their order. *)
Theorem trace_keeps_the_rows (Array_sort : SortFn)
    (host_sort : SortSpec Array_sort) (ed : RuntimeExtensionsEditor)
    (out : list IRuntimeExtension) :
  _resolveExtensions Array_sort ed = Ok out →
  ∃ out0, _resolveExtensions Array_sort (set_profileInfo None ed) = Ok out0 ∧
          withoutProfile <$> out ≡ₚ out0 ∧
          length out0 = length out.
Proof.
  intros Hres.
  destruct (resolve_inv _ host_sort _ _ Hres) as (Hall & Hperm & _).
  exists (filter hasActivationTimes (buildResult (set_profileInfo None ed))).
  split; [|split].
  - rewrite resolve_without_trace_eq by done.
    apply filterActivated_Ok. rewrite buildResult_without_profile.
    apply Forall_fmap. eapply Forall_impl; [exact Hall|]. done.
  - rewrite buildResult_without_profile, <- filter_withoutProfile.
    by rewrite Hperm.
  - rewrite buildResult_without_profile, <- filter_withoutProfile.
    by rewrite length_fmap, Hperm.
Qed.

Lemma trace_keeps_the_rows_witness :
  ∃ out0, _resolveExtensions insertionSort (set_profileInfo None profiledEditor)
            = Ok out0 ∧
          withoutProfile <$> [recordAt profiledEditor 1 (describe "A");
                              recordAt profiledEditor 0 (describe "B");
                              recordAt profiledEditor 2 (describe "C");
                              recordAt profiledEditor 3 (describe "D")] ≡ₚ out0.
Proof.
  destruct (trace_keeps_the_rows insertionSort insertionSort_spec profiledEditor
              [recordAt profiledEditor 1 (describe "A");
               recordAt profiledEditor 0 (describe "B");
               recordAt profiledEditor 2 (describe "C");
               recordAt profiledEditor 3 (describe "D")])
    as (out0 & Hres0 & Hperm & _).
  { vm_compute. reflexivity. }
  exists out0. split; [exact Hres0|exact Hperm].
Defined.

Lemma labelDeltas_nonneg (lbl : string) (pairs : list (string * Z)) :
  Forall (fun delta => 0 ≤ delta) pairs.*2 →
  Forall (fun delta => 0 ≤ delta) (labelDeltas lbl pairs).
Proof.
  induction pairs as [|[l delta] pairs IH]; simpl; [done|].
  intros [Hd Hpos]%Forall_cons. case_decide; [constructor|]; auto.
Qed.

Lemma groupSegments_totals_nonneg (p : IExtensionHostProfile) (lbl : string) :
  Forall (fun delta => 0 ≤ delta) (deltas p) →
  0 ≤ sumSegments (default [] (groupSegments (Some p) !! lbl)).
Proof.
  intros Hpos.
  rewrite groupSegments_lookup, sumSegments_flatten, sumLengths_intervalsOf.
  apply sumZ_nonneg, labelDeltas_nonneg. by rewrite pairsFrom_snd.
Qed.

Lemma totalOverLabels_delete (m : gmap string (list Z)) (k : string)
    (v : list Z) :
  m !! k = Some v →
  totalOverLabels m = sumSegments v + totalOverLabels (delete k m).
Proof.
  intros Hk. rewrite <- (insert_delete_id m k v Hk) at 1.
  apply totalOverLabels_insert_fresh, lookup_delete_eq.
Qed.

(** The totals of distinct keys never exceed the total of the dictionary
    when no total is negative. *)
Lemma distinct_keys_total (ks : list string) :
  ∀ m : gmap string (list Z),
    NoDup ks →
    (∀ k, 0 ≤ sumSegments (default [] (m !! k))) →
    sumZ ((fun k => sumSegments (default [] (m !! k))) <$> ks) ≤
    totalOverLabels m.
Proof.
  induction ks as [|k ks IH]; intros m Hnodup Hpos.
  - simpl. revert Hpos. unfold totalOverLabels.
    induction m as [|k v m Hk Hfold IHm] using map_first_key_ind.
    + intros _. rewrite map_fold_empty. lia.
    + intros Hpos. rewrite map_fold_insert_first_key by done.
      pose proof (Hpos k) as Hkv. rewrite lookup_insert_eq in Hkv. simpl in Hkv.
      assert (0 ≤ map_fold (fun _ s acc => sumSegments s + acc) 0 m); [|lia].
      apply IHm. intros k'. destruct (decide (k = k')) as [<-|Hne].
      * rewrite Hk. simpl. by rewrite sumSegments_nil.
      * specialize (Hpos k'). by rewrite lookup_insert_ne in Hpos.
  - apply NoDup_cons in Hnodup as [Hnot Hnodup].
    rewrite fmap_cons. simpl.
    destruct (m !! k) as [v|] eqn:Hk; simpl.
    + rewrite (totalOverLabels_delete m k v Hk).
      assert (Hsame : (fun k0 => sumSegments (default [] (m !! k0))) <$> ks =
                      (fun k0 => sumSegments (default [] (delete k m !! k0))) <$> ks).
      { apply list_fmap_ext. intros i k' Hk'.
        rewrite lookup_delete_ne; [done|]. intros ->.
        apply Hnot. by eapply list_elem_of_lookup_2. }
      rewrite Hsame.
      assert (sumZ ((fun k0 => sumSegments (default [] (delete k m !! k0))) <$> ks)
              ≤ totalOverLabels (delete k m)); [|lia].
      apply IH; [done|]. intros k'. destruct (decide (k = k')) as [<-|Hne].
      * rewrite lookup_delete_eq. simpl. by rewrite sumSegments_nil.
      * rewrite lookup_delete_ne by done. apply Hpos.
    + rewrite sumSegments_nil.
      assert (sumZ ((fun k0 => sumSegments (default [] (m !! k0))) <$> ks)
              ≤ totalOverLabels m); [|lia].
      by apply IH.
Qed.

(** ** More on the editor refresh *)





(** X9. When a description has no status entry, [setProfileInfo] throws a
    [TypeError] after it has stored the new trace: the editor is left with
    the new [_profileInfo] and the rows of the previous resolve. *)
Theorem setProfileInfo_throws_after_assignment (Array_sort : SortFn)
    (ed : RuntimeExtensionsEditor) (p : IExtensionHostProfile) :
  (∃ d, d ∈ _extensionsDescriptions ed ∧
        getExtensionsStatus ed !! id d = None) →
  ∃ ed', setProfileInfo Array_sort p ed = (Throw TypeError, ed') ∧
         _profileInfo ed' = Some p ∧
         _elements ed' = _elements ed.
Proof.
  intros (d & [i Hi]%list_elem_of_lookup & Hnone).
  exists (set_profileInfo (Some p) ed). split; [|done].
  assert (Hres : _resolveExtensions Array_sort (set_profileInfo (Some p) ed)
                 = Throw TypeError).
  { unfold _resolveExtensions. rewrite filterActivated_Throw; [done|].
    apply Exists_exists.
    exists (recordAt (set_profileInfo (Some p) ed) i d). split; [|done].
    apply list_elem_of_lookup. exists i. apply buildResult_lookup. eauto. }
  unfold setProfileInfo, _updateExtensions, mbind, ST_bind, bind, modify.
  by rewrite Hres.
Qed.

Lemma setProfileInfo_throws_after_assignment_witness :
  ∃ ed', setProfileInfo insertionSort sampleTrace missingStatusEditor =
           (Throw TypeError, ed') ∧
         _profileInfo ed' = Some sampleTrace ∧
         _elements ed' = None.
Proof.
  apply (setProfileInfo_throws_after_assignment insertionSort
           missingStatusEditor sampleTrace).
  exists (describe "B"). split; [|reflexivity].
  simpl. apply list_elem_of_further, list_elem_of_here.
Defined.

(** ** More on the profile session action *)

(** The stop callback, by the outcome of the refresh of the parent editor. *)
Lemma onStopFulfilled_cases (Array_sort : SortFn)
    (result : IExtensionHostProfile) (w : World) :
  match _resolveExtensions Array_sort
          (set_profileInfo (Some result) (_parentEditor w)) with
  | Ok elements =>
      snd (onStopFulfilled Array_sort result w) =
      {| _profileSession := _profileSession w;
         _state := ProfileSessionState.None;
         class := match _profileSession w with
                  | Some _ => STOP_CSS_CLASS
                  | None => START_CSS_CLASS
                  end;
         label := match _profileSession w with
                  | Some _ => LABEL_STOP
                  | None => LABEL_START
                  end;
         _parentEditor :=
           set_elements (Some elements)
             (set_profileInfo (Some result) (_parentEditor w));
         outstanding := outstanding w; issued := issued w;
         unexpectedErrors := unexpectedErrors w;
         published := published w ++ [result] |}
  | Throw _ =>
      snd (onStopFulfilled Array_sort result w) =
      {| _profileSession := _profileSession w;
         _state := _state w;
         class := class w;
         label := label w;
         _parentEditor := set_profileInfo (Some result) (_parentEditor w);
         outstanding := outstanding w; issued := issued w;
         unexpectedErrors := unexpectedErrors w;
         published := published w ++ [result] |}
  end.
Proof.
  destruct w as [session state c l parent pending log errs pub].
  unfold onStopFulfilled, parent_setProfileInfo, setProfileInfo,
    _updateExtensions.
  action_compute.
  destruct (_resolveExtensions Array_sort (set_profileInfo (Some result) parent));
    by destruct session.
Qed.

Lemma newAction_labelled (parent : RuntimeExtensionsEditor) :
  Labelled (newAction parent).
Proof. by split. Qed.

Lemma step_labelled (Array_sort : SortFn) (w w' : World) (e : Event) :
  Coherent w → Labelled w → step Array_sort w e = Some w' → Labelled w'.
Proof.
  intros Hw Hl. destruct e as [|value|err|s result|s err]; simpl.
  - intros [= <-]. revert Hw Hl.
    destruct w as [[s0|] [] c l parent pending log errs pub];
      unfold Coherent, Labelled; action_compute;
      intros [Hs Hp] [Hl Hc]; subst; try done; by destruct Hs.
  - case_decide as Hin; [|done]. intros [= <-]. revert Hin Hw Hl.
    destruct w as [[s0|] [] c l parent pending log errs pub];
      unfold Coherent, Labelled; action_compute;
      intros Hin [Hs Hp] [Hl Hc]; subst; try done;
      try (by apply elem_of_nil in Hin);
      try (by apply list_elem_of_singleton in Hin);
      try (destruct Hp as [->|[s' ->]];
           [by apply elem_of_nil in Hin|by apply list_elem_of_singleton in Hin]).
  - case_decide as Hin; [|done]. intros [= <-]. revert Hin Hw Hl.
    destruct w as [[s0|] [] c l parent pending log errs pub];
      unfold Coherent, Labelled; action_compute;
      intros Hin [Hs Hp] [Hl Hc]; subst; try done;
      try (by apply elem_of_nil in Hin);
      try (by apply list_elem_of_singleton in Hin);
      try (destruct Hp as [->|[s' ->]];
           [by apply elem_of_nil in Hin|by apply list_elem_of_singleton in Hin]).
  - case_decide as Hin; [|done]. intros [= <-].
    pose proof (onStopFulfilled_cases Array_sort result
                  (settled (StopRequest s) w)) as Hcases.
    revert Hin Hw Hl Hcases.
    destruct w as [[s0|] [] c l parent pending log errs pub];
      unfold Coherent, Labelled;
      cbn [settled _state _profileSession class label
           _parentEditor outstanding issued unexpectedErrors published];
      intros Hin [Hs Hp] [Hl Hc]; subst; try done;
      try (by apply elem_of_nil in Hin);
      try (by apply list_elem_of_singleton in Hin);
      destruct (_resolveExtensions _ _); intros ->; done.
  - case_decide as Hin; [|done]. intros [= <-]. revert Hin Hw Hl.
    destruct w as [[s0|] [] c l parent pending log errs pub];
      unfold Coherent, Labelled; action_compute;
      intros Hin [Hs Hp] [Hl Hc]; subst; try done;
      try (by apply elem_of_nil in Hin);
      by apply list_elem_of_singleton in Hin.
Qed.

Lemma steps_labelled (Array_sort : SortFn) (evs : list Event) :
  ∀ w w', Coherent w → Labelled w → steps Array_sort w evs = Some w' →
          Labelled w'.
Proof.
  induction evs as [|e evs IH]; intros w w' Hw Hl; simpl.
  - by intros [= <-].
  - destruct (step Array_sort w e) as [w1|] eqn:He; [|done].
    apply IH; [by eapply step_coherent|by eapply step_labelled].
Qed.

(** X10. In every state the action can reach, the button shows the stop
    label and class exactly in [Running] and [Stopping], and the start label
    and class exactly in [None] and [Starting]; so during [Stopping] it still
    reads "Stop" although the session handle is already null. *)
Theorem label_follows_state (Array_sort : SortFn)
    (parent : RuntimeExtensionsEditor) (evs : list Event) (w : World) :
  steps Array_sort (newAction parent) evs = Some w →
  (label w = LABEL_STOP ∧ class w = STOP_CSS_CLASS ↔
   _state w = ProfileSessionState.Running ∨
   _state w = ProfileSessionState.Stopping) ∧
  (label w = LABEL_START ∧ class w = START_CSS_CLASS ↔
   _state w = ProfileSessionState.None ∨
   _state w = ProfileSessionState.Starting) ∧
  (_state w = ProfileSessionState.Stopping →
   label w = LABEL_STOP ∧ _profileSession w = None).
Proof.
  intros Hsteps.
  pose proof (reachable_coherent _ _ _ _ Hsteps) as Hw.
  pose proof (steps_labelled _ _ _ _ (newAction_coherent parent)
                (newAction_labelled parent) Hsteps) as Hl.
  revert Hw Hl. unfold Coherent, Labelled.
  destruct (_state w); intros [Hs _] [-> ->];
    (split; [|split]); try (split; intros); try done; auto;
    try (by destruct H as [? ?]); try (by destruct H).
Qed.

Lemma label_follows_state_witness :
  ∃ w, steps insertionSort (newAction emptyEditor)
         [EvRun; EvStartResolved 7%nat; EvRun] = Some w ∧
       _state w = ProfileSessionState.Stopping ∧
       label w = LABEL_STOP ∧ _profileSession w = None.
Proof.
  assert (Hs : ∃ w, steps insertionSort (newAction emptyEditor)
                      [EvRun; EvStartResolved 7%nat; EvRun] = Some w ∧
                    _state w = ProfileSessionState.Stopping).
  { eexists. split; vm_compute; reflexivity. }
  destruct Hs as (w & Hw & Hst). exists w.
  split; [exact Hw|]. split; [exact Hst|].
  apply (label_follows_state insertionSort emptyEditor _ w Hw). exact Hst.
Defined.

Lemma steps_invariant (Array_sort : SortFn) (P : World → Prop) :
  (∀ w e w', P w → step Array_sort w e = Some w' → P w') →
  ∀ evs w w', P w → steps Array_sort w evs = Some w' → P w'.
Proof.
  intros Hstep. induction evs as [|e evs IH]; intros w w' Hw; simpl.
  - by intros [= <-].
  - destruct (step Array_sort w e) as [w1|] eqn:He; [|done].
    apply IH. by eapply Hstep.
Qed.








Lemma step_editor_kept (Array_sort : SortFn) (parent : RuntimeExtensionsEditor)
    (w w' : World) (e : Event) :
  EditorKept parent w → step Array_sort w e = Some w' → EditorKept parent w'.
Proof.
  intros Hk. destruct e as [|value|err|s result|s err]; simpl;
    try (case_decide; [|done]); intros [= <-].
  - revert Hk. destruct w as [[s0|] [] c l parent' pending log errs pub];
      unfold EditorKept; action_compute; done.
  - revert Hk. destruct w as [[s0|] st c l parent' pending log errs pub];
      unfold EditorKept; action_compute; done.
  - revert Hk. destruct w as [[s0|] st c l parent' pending log errs pub];
      unfold EditorKept; action_compute; done.
  - pose proof (onStopFulfilled_cases Array_sort result
                  (settled (StopRequest s) w)) as Hcases.
    revert Hk Hcases.
    destruct w as [session st c l parent' pending log errs pub].
    unfold EditorKept.
    cbn [settled _state _profileSession class label
         _parentEditor outstanding issued unexpectedErrors published].
    intros (Hd & Hl & Hs & Hp).
    destruct (_resolveExtensions _ _); intros ->;
      cbn; rewrite last_snoc; done.
  - revert Hk. destruct w as [[s0|] st c l parent' pending log errs pub];
      unfold EditorKept; action_compute; done.
Qed.

(** X12. The action changes its parent editor only through
    [setProfileInfo]: in every state it can reach, the editor's descriptions
    and service snapshots are those it started with, and the editor's trace
    is the last trace the action published, or the initial one when it
    published none. *)
Theorem action_keeps_editor (Array_sort : SortFn)
    (parent : RuntimeExtensionsEditor) (evs : list Event) (w : World) :
  steps Array_sort (newAction parent) evs = Some w →
  _extensionsDescriptions (_parentEditor w) = _extensionsDescriptions parent ∧
  local (_parentEditor w) = local parent ∧
  getExtensionsStatus (_parentEditor w) = getExtensionsStatus parent ∧
  _profileInfo (_parentEditor w) =
    match last (published w) with
    | Some result => Some result
    | None => _profileInfo parent
    end.
Proof.
  apply (steps_invariant Array_sort (EditorKept parent)).
  - intros w0 e w1. apply step_editor_kept.
  - done.
Qed.

Lemma action_keeps_editor_witness :
  ∃ w, steps insertionSort (newAction scenarioEditor)
         [EvRun; EvStartResolved 7%nat; EvRun; EvStopResolved 7%nat sampleTrace]
       = Some w ∧
       published w = [sampleTrace] ∧
       _profileInfo (_parentEditor w) = Some sampleTrace ∧
       _extensionsDescriptions (_parentEditor w) =
         _extensionsDescriptions scenarioEditor.
Proof.
  destruct (steps insertionSort (newAction scenarioEditor)
              [EvRun; EvStartResolved 7%nat; EvRun;
               EvStopResolved 7%nat sampleTrace]) as [w|] eqn:Hw;
    [|vm_compute in Hw; discriminate Hw].
  destruct (action_keeps_editor insertionSort scenarioEditor _ w Hw)
    as (Hd & _ & _ & Hp).
  exists w. split; [reflexivity|].
  assert (Hpub : published w = [sampleTrace]).
  { vm_compute in Hw. injection Hw as <-. reflexivity. }
  split; [exact Hpub|]. split; [|exact Hd].
  rewrite Hp, Hpub. reflexivity.
Defined.

Lemma startCount_snoc (log : list Request) (r : Request) :
  startCount (log ++ [r]) =
  (startCount log + match r with StartRequest => 1 | StopRequest _ => 0 end)%nat.
Proof.
  unfold startCount. rewrite filter_app, length_app. by destruct r.
Qed.

Lemma stopCount_snoc (log : list Request) (r : Request) :
  stopCount (log ++ [r]) =
  (stopCount log + match r with StartRequest => 0 | StopRequest _ => 1 end)%nat.
Proof.
  unfold stopCount. rewrite filter_app, length_app. by destruct r.
Qed.

Lemma stopCount_singleton (s : ProfileSession) :
  stopCount [StopRequest s] = 1%nat.
Proof. reflexivity. Qed.

Lemma step_counted (Array_sort : SortFn) (w w' : World) (e : Event) :
  Coherent w ∧ Counted w → step Array_sort w e = Some w' →
  Coherent w' ∧ Counted w'.
Proof.
  intros [Hw Hc] Hstep. split; [by eapply step_coherent|].
  revert Hstep. destruct e as [|value|err|s result|s err]; simpl;
    try (case_decide as Hin; [|done]); intros [= <-].
  - revert Hw Hc.
    destruct w as [[s0|] [] c l parent pending log errs pub];
      unfold Coherent, Counted; action_compute;
      intros [Hs Hp] [Hc1 Hc2]; subst; try done; try (by destruct Hs);
      rewrite ?startCount_snoc, ?stopCount_snoc;
      unfold startCount, stopCount in *; simpl in *; lia.
  - revert Hin Hw Hc.
    destruct w as [[s0|] [] c l parent pending log errs pub];
      unfold Coherent, Counted; action_compute;
      intros Hin [Hs Hp] [Hc1 Hc2]; subst; try done;
      try (by apply elem_of_nil in Hin);
      try (by apply list_elem_of_singleton in Hin);
      try (destruct Hp as [->|[s' ->]];
           [by apply elem_of_nil in Hin|by apply list_elem_of_singleton in Hin]).
  - revert Hin Hw Hc.
    destruct w as [[s0|] [] c l parent pending log errs pub];
      unfold Coherent, Counted; action_compute;
      intros Hin [Hs Hp] [Hc1 Hc2]; subst; try done;
      try (by apply elem_of_nil in Hin);
      try (by apply list_elem_of_singleton in Hin);
      try (destruct Hp as [->|[s' ->]];
           [by apply elem_of_nil in Hin|by apply list_elem_of_singleton in Hin]);
      unfold startCount, stopCount in *; simpl in *; split; lia.
  - pose proof (onStopFulfilled_cases Array_sort result
                  (settled (StopRequest s) w)) as Hcases.
    revert Hin Hw Hc Hcases.
    destruct w as [[s0|] [] c l parent pending log errs pub];
      unfold Coherent, Counted;
      cbn [settled _state _profileSession class label
           _parentEditor outstanding issued unexpectedErrors published];
      intros Hin [Hs Hp] [Hc1 Hc2]; subst; try done;
      try (by apply elem_of_nil in Hin);
      try (by apply list_elem_of_singleton in Hin).
    destruct Hp as [->|[s' ->]]; [by apply elem_of_nil in Hin|].
    apply list_elem_of_singleton in Hin as [= ->].
    rewrite settle_single.
    rewrite stopCount_singleton in Hc1.
    destruct (_resolveExtensions _ _); intros ->;
      unfold startCount, stopCount in *; cbn in *;
      rewrite length_app; simpl; split; lia.
  - revert Hin Hw Hc.
    destruct w as [[s0|] [] c l parent pending log errs pub];
      unfold Coherent, Counted; action_compute;
      intros Hin [Hs Hp] [Hc1 Hc2]; subst; try done;
      try (by apply elem_of_nil in Hin);
      try (by apply list_elem_of_singleton in Hin).
    destruct Hp as [->|[s' ->]]; [by apply elem_of_nil in Hin|].
    apply list_elem_of_singleton in Hin as [= ->].
    rewrite settle_single. rewrite stopCount_singleton in Hc1.
    unfold startCount, stopCount in *. simpl in *. split; lia.
Qed.

(** X13. The action never issues more stop requests than start requests,
    and never publishes more traces than it issued stop requests. *)
Theorem requests_are_balanced (Array_sort : SortFn)
    (parent : RuntimeExtensionsEditor) (evs : list Event) (w : World) :
  steps Array_sort (newAction parent) evs = Some w →
  (length (published w) ≤ stopCount (issued w))%nat ∧
  (stopCount (issued w) ≤ startCount (issued w))%nat.
Proof.
  intros Hsteps.
  destruct (steps_invariant Array_sort (fun w => Coherent w ∧ Counted w)
              (fun w0 e w1 => step_counted Array_sort w0 w1 e)
              evs (newAction parent) w) as [_ [H1 H2]];
    [|done|].
  - split; [apply newAction_coherent|]. by split; vm_compute.
  - split; [lia|]. destruct (_state w); lia.
Qed.

Lemma requests_are_balanced_witness :
  ∃ w, steps insertionSort (newAction emptyEditor)
         [EvRun; EvStartRejected "denied"; EvRun; EvStartResolved 7%nat; EvRun]
       = Some w ∧
       issued w = [StartRequest; StartRequest; StopRequest 7%nat] ∧
       (stopCount (issued w) ≤ startCount (issued w))%nat.
Proof.
  assert (Hs : ∃ w, steps insertionSort (newAction emptyEditor)
                      [EvRun; EvStartRejected "denied"; EvRun;
                       EvStartResolved 7%nat; EvRun] = Some w ∧
                    issued w = [StartRequest; StartRequest; StopRequest 7%nat]).
  { eexists. split; vm_compute; reflexivity. }
  destruct Hs as (w & Hw & Hi). exists w.
  split; [exact Hw|]. split; [exact Hi|].
  apply (requests_are_balanced insertionSort emptyEditor _ w Hw).
Defined.

Lemma step_provenance (Array_sort : SortFn) (H : ProfileSession → Prop)
    (w w' : World) (e : Event) :
  (∀ s, _profileSession w = Some s → H s) →
  (∀ s, StopRequest s ∈ issued w → H s) →
  step Array_sort w e = Some w' →
  (∀ s, _profileSession w' = Some s → H s ∨ e = EvStartResolved s) ∧
  (∀ s, StopRequest s ∈ issued w' → H s ∨ e = EvStartResolved s).
Proof.
  intros Hsess Hlog. destruct e as [|value|err|s0 result|s0 err]; simpl;
    try (case_decide as Hin0; [|done]); intros [= <-].
  - revert Hsess Hlog.
    destruct w as [[s1|] [] c l parent pending log errs pub];
      action_compute; intros Hsess Hlog; (split; intros s Hin; left);
      try (first [done | by apply Hsess | by apply Hlog]);
      apply elem_of_app in Hin as [Hin|Hin%list_elem_of_singleton];
      first [by apply Hlog | done | injection Hin as <-; by apply Hsess].
  - revert Hsess Hlog.
    destruct w as [[s1|] st c l parent pending log errs pub];
      action_compute; intros Hsess Hlog;
      (split; intros s Hin; [injection Hin as <-; by right|left; by apply Hlog]).
  - revert Hsess Hlog.
    destruct w as [[s1|] st c l parent pending log errs pub];
      action_compute; intros Hsess Hlog;
      (split; intros s Hin; left; first [done | by apply Hsess | by apply Hlog]).
  - destruct (onStopFulfilled_fields Array_sort result
                (settled (StopRequest s0) w)) as (Hs & _ & Hi & _).
    rewrite Hs, Hi. destruct w; simpl in *.
    split; intros s Hin; left; eauto.
  - revert Hsess Hlog.
    destruct w as [[s1|] st c l parent pending log errs pub];
      action_compute; intros Hsess Hlog;
      (split; intros s Hin; left; first [done | by apply Hsess | by apply Hlog]).
Qed.

Lemma steps_provenance (Array_sort : SortFn) (evs : list Event) :
  ∀ (H : ProfileSession → Prop) (w w' : World),
    (∀ s, _profileSession w = Some s → H s) →
    (∀ s, StopRequest s ∈ issued w → H s) →
    steps Array_sort w evs = Some w' →
    (∀ s, _profileSession w' = Some s → H s ∨ EvStartResolved s ∈ evs) ∧
    (∀ s, StopRequest s ∈ issued w' → H s ∨ EvStartResolved s ∈ evs).
Proof.
  induction evs as [|e evs IH]; intros H w w' Hsess Hlog; simpl.
  - intros [= <-]. split; intros s ?; left; eauto.
  - destruct (step Array_sort w e) as [w1|] eqn:He; [|done].
    destruct (step_provenance Array_sort H w w1 e Hsess Hlog He) as [Hs1 Hl1].
    intros Hsteps.
    destruct (IH (fun s => H s ∨ e = EvStartResolved s) w1 w' Hs1 Hl1 Hsteps)
      as [Hs' Hl'].
    split; intros s Hin.
    + destruct (Hs' s Hin) as [[?| ->]|?]; [by left|right; by left|right; by right].
    + destruct (Hl' s Hin) as [[?| ->]|?]; [by left|right; by left|right; by right].
Qed.

(** X14. A stop request is only ever sent to a handle that a successful
    start delivered: every stop request in the log, and the handle the
    action stores, is the value of an earlier start settlement. *)
Theorem stop_targets_started_session (Array_sort : SortFn)
    (parent : RuntimeExtensionsEditor) (evs : list Event) (w : World)
    (s : ProfileSession) :
  steps Array_sort (newAction parent) evs = Some w →
  (StopRequest s ∈ issued w → EvStartResolved s ∈ evs) ∧
  (_profileSession w = Some s → EvStartResolved s ∈ evs).
Proof.
  intros Hsteps.
  destruct (steps_provenance Array_sort evs (fun _ => False)
              (newAction parent) w) as [Hs Hl]; [done| |done|].
  - simpl. by intros s' ?%elem_of_nil.
  - split; intros Hin.
    + by destruct (Hl s Hin).
    + by destruct (Hs s Hin).
Qed.

Lemma stop_targets_started_session_witness :
  ∃ w, steps insertionSort (newAction emptyEditor)
         [EvRun; EvStartResolved 7%nat; EvRun] = Some w ∧
       issued w = [StartRequest; StopRequest 7%nat] ∧
       EvStartResolved 7%nat ∈ [EvRun; EvStartResolved 7%nat; EvRun].
Proof.
  assert (Hs : ∃ w, steps insertionSort (newAction emptyEditor)
                      [EvRun; EvStartResolved 7%nat; EvRun] = Some w ∧
                    issued w = [StartRequest; StopRequest 7%nat]).
  { eexists. split; vm_compute; reflexivity. }
  destruct Hs as (w & Hw & Hi). exists w.
  split; [exact Hw|]. split; [exact Hi|].
  apply (proj1 (stop_targets_started_session insertionSort emptyEditor _ w
                  7%nat Hw)).
  rewrite Hi. apply list_elem_of_further, list_elem_of_here.
Defined.

(** ** Rendering a row *)

(** The title is the message with the event filled in; the events ["*"] and
    ["start-up"] are titled alike. *)
Example activationTitle_samples :
  activationTitle "onLanguage:python" =
    "Activated because you opened a python file"%string ∧
  activationTitle "workspaceContains:*.md" =
    "Activated because a file matching *.md exists in your workspace"%string ∧
  activationTitle "workspaceContains:package.json" =
    "Activated because file package.json exists in your workspace"%string ∧
  activationTitle "*" = activationTitle "start-up".
Proof. repeat split; reflexivity. Qed.




(** A row of a resolve has a status with activation times, and a profile
    information when the editor has a trace. *)
Lemma resolve_row (Array_sort : SortFn) (host_sort : SortSpec Array_sort)
    (ed : RuntimeExtensionsEditor) (out : list IRuntimeExtension)
    (r : IRuntimeExtension) :
  _resolveExtensions Array_sort ed = Ok out → r ∈ out →
  ∃ (i : nat) d s a,
    r = recordAt ed i d ∧ _extensionsDescriptions ed !! i = Some d ∧
    status r = Some s ∧ activationTimes s = Some a.
Proof.
  intros Hres Hr.
  apply (resolve_elem _ host_sort _ _ r Hres) in Hr as [Hin Hact].
  apply hasActivationTimes_spec in Hact as (s & a & Hs & Ha).
  apply buildResult_elem in Hin as (i & d & Hd & ->).
  by exists i, d, s, a.
Qed.

(** X15. A row of a resolve is rendered without an exception exactly when
    the marketplace snapshot has an extension with the row's identifier;
    otherwise [renderElement] throws a [TypeError] at line 294: the error
    listener of the row is registered by then, and no property of the row's
    nodes is written. *)
Theorem rows_render_iff_in_marketplace (Array_sort : SortFn)
    (host_sort : SortSpec Array_sort) (iconUrl : IExtension.t → string)
    (toFixed2 : Z → string) (segmentRect : Z → Z → Z → string)
    (ed : RuntimeExtensionsEditor) (out : list IRuntimeExtension)
    (r : IRuntimeExtension) (data : gmap string DomValue) :
  _resolveExtensions Array_sort ed = Ok out →
  r ∈ out →
  ((∃ e, e ∈ local ed ∧ IExtension.id e = id (description r)) →
   fst (renderElement iconUrl toFixed2 segmentRect ed r data) = Ok tt) ∧
  ((∀ e, e ∈ local ed → IExtension.id e ≠ id (description r)) →
   renderElement iconUrl toFixed2 segmentRect ed r data =
     (Throw TypeError, <["elementDisposables" := Disposables [r]]> data)).
Proof.
  intros Hres Hr.
  destruct (resolve_row _ host_sort _ _ _ Hres Hr)
    as (i & d & s & a & -> & Hd & Hs & Ha).
  unfold renderElement. simpl in Hs. cbn [description recordAt marketplaceInfo
    status profileInfo]. rewrite Hs. split.
  - intros (e & He & Hid). rewrite marketplaceMapOf_lookup.
    destruct (last (filter _ (local ed))) as [m|] eqn:Hlast.
    + st_compute. rewrite Ha.
      destruct (_profileInfo ed) as [p|]; destruct (messages s); reflexivity.
    + apply last_None in Hlast.
      assert (Hin : e ∈ filter (fun e => IExtension.id e = id d) (local ed))
        by (by apply list_elem_of_filter).
      rewrite Hlast in Hin. by apply elem_of_nil in Hin.
  - intros Hall. rewrite marketplaceMapOf_lookup.
    destruct (last (filter _ (local ed))) as [m|] eqn:Hlast; [|done].
    apply last_Some_elem_of, list_elem_of_filter in Hlast as [Hid Hm].
    by destruct (Hall m Hm).
Qed.

Lemma rows_render_iff_in_marketplace_witness :
  fst (renderElement sampleIconUrl sampleToFixed2 sampleRect marketEditor
         (recordAt marketEditor 0 (describe "A")) ∅) = Ok tt ∧
  renderElement sampleIconUrl sampleToFixed2 sampleRect marketEditor
    (recordAt marketEditor 1 (describe "B")) ∅ =
    (Throw TypeError,
     <["elementDisposables" :=
         Disposables [recordAt marketEditor 1 (describe "B")]]> ∅).
Proof.
  assert (Hres : _resolveExtensions insertionSort marketEditor =
    Ok [recordAt marketEditor 0 (describe "A");
        recordAt marketEditor 1 (describe "B");
        recordAt marketEditor 2 (describe "C")]) by reflexivity.
  split.
  - apply (rows_render_iff_in_marketplace insertionSort insertionSort_spec
             sampleIconUrl sampleToFixed2 sampleRect marketEditor _
             (recordAt marketEditor 0 (describe "A")) ∅ Hres).
    + apply list_elem_of_here.
    + exists marketA1. split; [apply list_elem_of_here|reflexivity].
  - apply (rows_render_iff_in_marketplace insertionSort insertionSort_spec
             sampleIconUrl sampleToFixed2 sampleRect marketEditor _
             (recordAt marketEditor 1 (describe "B")) ∅ Hres).
    + apply list_elem_of_further, list_elem_of_here.
    + intros e He. simpl in He.
      repeat (apply elem_of_cons in He as [->|He]); try discriminate.
      by apply elem_of_nil in He.
Defined.



(** ** Reporting an issue *)

Lemma string_length_app (a b : string) :
  String.length (a +:+ b) = (String.length a + String.length b)%nat.
Proof. induction a as [|c a IH]; simpl; [done|]. by rewrite IH. Qed.

Lemma string_append_assoc (a b c : string) :
  (a +:+ b) +:+ c = a +:+ b +:+ c.
Proof.
  induction a as [|x a IH]; [done|].
  change (String x ((a +:+ b) +:+ c) = String x (a +:+ b +:+ c)).
  by f_equal.
Qed.

Lemma firstChars_app (a b : string) :
  firstChars (String.length a) (a +:+ b) = a.
Proof.
  induction a as [|c a IH]; simpl; [by destruct b|]. by rewrite IH.
Qed.

Lemma firstChars_0 (s : string) : firstChars 0 s = EmptyString.
Proof. by destruct s. Qed.

Lemma hasChar_app (c : ascii) (a b : string) :
  hasChar c (a +:+ b) = hasChar c a || hasChar c b.
Proof.
  induction a as [|c' a IH]; simpl; [done|]. by case_decide.
Qed.

(** X18. For a user-installed extension with a repository URL, the issue
    URL is built on the repository URL without its last four characters,
    whatever they are (they are not checked to be [.git]), followed by
    [/issues/new/]; a URL of fewer than four characters leaves only
    [/issues/new/]. *)
Theorem issue_url_drops_four_characters
    (extensionType : IExtension.t → LocalExtensionType)
    (repositoryUrl : IExtensionDescription → option string)
    (reportIssueUrl os_type os_arch os_release pkg_version : string)
    (encodeURIComponent : string → string)
    (extension : IRuntimeExtension) (info : IExtension.t)
    (kept suffix : string) :
  marketplaceInfo extension = Some info →
  extensionType info = User →
  repositoryUrl (description extension) = Some (kept +:+ suffix) →
  (String.length suffix = 4%nat ∨
   (kept = EmptyString ∧ 0 < String.length suffix < 4)%nat) →
  ∃ separator,
    generateNewIssueUrl extensionType repositoryUrl reportIssueUrl
      os_type os_arch os_release pkg_version encodeURIComponent extension =
    Ok ((kept +:+ "/issues/new/") +:+ separator +:+ "body=" +:+
        encodeURIComponent
          (issueBody os_type os_arch os_release pkg_version extension)) ∧
    separator = if hasChar "?" kept then "&"%string else "?"%string.
Proof.
  intros Hinfo Htype Hrepo Hlen.
  exists (if hasChar "?" kept then "&"%string else "?"%string).
  split; [|done].
  unfold generateNewIssueUrl. rewrite Hinfo, Htype, Hrepo.
  assert (Hne : ∃ c rest, kept +:+ suffix = String c rest).
  { destruct kept as [|c kept]; simpl; [|eauto].
    destruct suffix as [|c suffix]; [simpl in Hlen; lia|eauto]. }
  destruct Hne as (c & rest & Hurl). rewrite Hurl, <- Hurl.
  assert (Hbase : substr0 (Z.of_nat (String.length (kept +:+ suffix)) - 4)
                          (kept +:+ suffix) = kept).
  { unfold substr0. rewrite string_length_app.
    destruct Hlen as [Hlen|[-> Hlen]].
    - replace (Z.to_nat (Z.of_nat (String.length kept + String.length suffix) - 4))
        with (String.length kept) by lia.
      apply firstChars_app.
    - replace (Z.to_nat (Z.of_nat (String.length EmptyString + String.length suffix) - 4))
        with 0%nat by (simpl; lia).
      apply firstChars_0. }
  rewrite Hbase.
  rewrite hasChar_app. replace (hasChar "?" "/issues/new/") with false by done.
  by rewrite orb_false_r.
Qed.

Lemma issue_url_drops_four_characters_witness :
  (∃ separator,
     generateNewIssueUrl userType gitRepository "https://report" "Linux" "x64"
       "4.4" "1.19.0" (fun s => s) (marketRow "A") =
     Ok (("https://example.org/A" +:+ "/issues/new/") +:+ separator +:+ "body=" +:+
         issueBody "Linux" "x64" "4.4" "1.19.0" (marketRow "A")) ∧
     separator = "?"%string) ∧
  (∃ separator,
     generateNewIssueUrl userType shortRepository "https://report" "Linux" "x64"
       "4.4" "1.19.0" (fun s => s) (marketRow "A") =
     Ok ((EmptyString +:+ "/issues/new/") +:+ separator +:+ "body=" +:+
         issueBody "Linux" "x64" "4.4" "1.19.0" (marketRow "A")) ∧
     separator = "?"%string).
Proof.
  split.
  - apply (issue_url_drops_four_characters userType gitRepository
             "https://report" "Linux" "x64" "4.4" "1.19.0" (fun s => s)
             (marketRow "A") _ "https://example.org/A" ".git"
             eq_refl eq_refl eq_refl).
    left. reflexivity.
  - apply (issue_url_drops_four_characters userType shortRepository
             "https://report" "Linux" "x64" "4.4" "1.19.0" (fun s => s)
             (marketRow "A") _ EmptyString "git"
             eq_refl eq_refl eq_refl).
    right. split; [reflexivity|]. simpl. lia.
Defined.

(** X19. Whenever [generateNewIssueUrl] returns, the URL has a query part:
    it holds a ['?'], and it ends with the [body=] parameter carrying the
    encoded issue text. It throws only for a row without marketplace
    entry. *)
Theorem issue_url_has_a_query
    (extensionType : IExtension.t → LocalExtensionType)
    (repositoryUrl : IExtensionDescription → option string)
    (reportIssueUrl os_type os_arch os_release pkg_version : string)
    (encodeURIComponent : string → string)
    (extension : IRuntimeExtension) :
  match generateNewIssueUrl extensionType repositoryUrl reportIssueUrl
          os_type os_arch os_release pkg_version encodeURIComponent extension
  with
  | Ok url =>
      is_Some (marketplaceInfo extension) ∧
      hasChar "?" url = true ∧
      ∃ front, url = front +:+ "body=" +:+
                 encodeURIComponent
                   (issueBody os_type os_arch os_release pkg_version extension)
  | Throw _ => marketplaceInfo extension = None
  end.
Proof.
  unfold generateNewIssueUrl.
  destruct (marketplaceInfo extension) as [info|]; [|done].
  cbv zeta.
  match goal with
  | |- context [if hasChar "?" ?b then _ else _] => generalize b
  end.
  intros baseUrl. split; [eauto|]. split.
  - rewrite hasChar_app. destruct (hasChar "?" baseUrl) eqn:Hq; [done|].
    by rewrite hasChar_app.
  - destruct (hasChar "?" baseUrl).
    + exists (baseUrl +:+ "&"). by rewrite string_append_assoc.
    + exists (baseUrl +:+ "?"). by rewrite string_append_assoc.
Qed.

(** ** The segmenter in the numbers of the code *)

(** *** Binary64 holds the integers up to [2 ^ 53] exactly *)

Lemma digits2_pos_log2 (p : positive) :
  Zpos (SpecFloat.digits2_pos p) = Z.log2 (Zpos p) + 1.
Proof.
  assert (Hsize : ∀ p, SpecFloat.digits2_pos p = Pos.size p).
  { intros p0. induction p0 as [p0 IH|p0 IH|]; simpl; by rewrite ?IH. }
  rewrite Hsize. destruct p; simpl; lia.
Qed.

Lemma Zpos_iter_xO (m d : positive) :
  Zpos (Pos.iter xO m d) = Zpos m * 2 ^ Zpos d.
Proof.
  rewrite <- Z.shiftl_mul_pow2 by lia. simpl.
  by rewrite (Pos.iter_swap_gen _ _ Zpos xO (Z.mul 2)).
Qed.

Lemma iter_pos_nat {A} (f : A → A) (p : positive) :
  ∀ x, SpecFloat.iter_pos f p x = Nat.iter (Pos.to_nat p) f x.
Proof.
  induction p as [p IH|p IH|]; intros x; cbn [SpecFloat.iter_pos].
  - rewrite !IH, Pos2Nat.inj_xI.
    replace (S (2 * Pos.to_nat p)) with (Pos.to_nat p + S (Pos.to_nat p))%nat
      by lia.
    by rewrite Nat.iter_add, Nat.iter_succ_r.
  - rewrite !IH, Pos2Nat.inj_xO.
    replace (2 * Pos.to_nat p)%nat with (Pos.to_nat p + Pos.to_nat p)%nat
      by lia.
    by rewrite Nat.iter_add.
  - done.
Qed.

Lemma shr_1_exact (k : nat) :
  ∀ M q : positive,
    Zpos M = Zpos q * 2 ^ Z.of_nat k →
    Nat.iter k SpecFloat.shr_1 (SpecFloat.Build_shr_record (Zpos M) false false) =
    SpecFloat.Build_shr_record (Zpos q) false false.
Proof.
  induction k as [|k IH]; intros M q HM.
  - simpl in *. f_equal. lia.
  - rewrite Nat.iter_succ_r.
    rewrite Nat2Z.inj_succ, Z.pow_succ_r in HM by lia.
    destruct M as [M|M|]; [lia| |lia].
    simpl. apply IH. lia.
Qed.

Lemma pow2_split (a b : Z) : 0 ≤ a → 0 ≤ b → 2 ^ (a + b) = 2 ^ a * 2 ^ b.
Proof. intros. by rewrite Z.pow_add_r. Qed.

Lemma fexp_digits (M : positive) (e t : Z) :
  -52 ≤ t → t = Z.log2 (Zpos M) + e - 52 →
  SpecFloat.fexp FloatOps.prec FloatOps.emax
    (Zpos (SpecFloat.digits2_pos M) + e) = t.
Proof.
  intros Ht ->. rewrite digits2_pos_log2.
  unfold SpecFloat.fexp, SpecFloat.emin, FloatOps.prec, FloatOps.emax. lia.
Qed.

(** Rounding a significand that already holds its value exactly gives the
    canonical significand and exponent of that value. *)
Lemma round_value (s : bool) (M q : positive) (e t : Z) :
  -52 ≤ e → -52 ≤ t ≤ 971 →
  t = Z.log2 (Zpos M) + e - 52 →
  Zpos q * 2 ^ (t + 52) = Zpos M * 2 ^ (e + 52) →
  SpecFloat.binary_round FloatOps.prec FloatOps.emax s M e =
  SpecFloat.S754_finite s q t.
Proof.
  intros He [Ht Ht'] Hlog Hval.
  pose proof (fexp_digits M e t Ht Hlog) as HfM.
  assert (Hlogq : t = Z.log2 (Zpos q) + t - 52).
  { assert (Z.log2 (Zpos q * 2 ^ (t + 52)) = Z.log2 (Zpos M * 2 ^ (e + 52)))
      as Hl by (by rewrite Hval).
    rewrite !Z.log2_mul_pow2 in Hl by lia. lia. }
  pose proof (fexp_digits q t t Ht Hlogq) as Hfq.
  assert (Hle : (t <=? FloatOps.emax - FloatOps.prec) = true).
  { apply Z.leb_le. unfold FloatOps.emax, FloatOps.prec. lia. }
  unfold SpecFloat.binary_round. rewrite HfM. unfold SpecFloat.shl_align.
  destruct (t - e) as [|p|d] eqn:Hd.
  - assert (t = e) as -> by lia.
    assert (q = M) as ->.
    { apply Z.mul_cancel_r in Hval; [lia|]. apply Z.pow_nonzero; lia. }
    unfold SpecFloat.binary_round_aux, SpecFloat.shr_fexp.
    cbn [SpecFloat.Zdigits2 SpecFloat.shr_record_of_loc].
    rewrite HfM, Hd. cbn [SpecFloat.shr SpecFloat.shr_m
      SpecFloat.loc_of_shr_record SpecFloat.round_nearest_even
      SpecFloat.Zdigits2 SpecFloat.shr_record_of_loc].
    rewrite HfM, Hd. cbn [SpecFloat.shr SpecFloat.shr_m]. by rewrite Hle.
  - assert (HM : Zpos M = Zpos q * 2 ^ Z.of_nat (Pos.to_nat p)).
    { rewrite positive_nat_Z, <- Hd.
      replace (t + 52) with ((t - e) + (e + 52)) in Hval by lia.
      rewrite (pow2_split (t - e) (e + 52)), Z.mul_assoc in Hval by lia.
      apply Z.mul_cancel_r in Hval; [lia|]. apply Z.pow_nonzero; lia. }
    unfold SpecFloat.binary_round_aux, SpecFloat.shr_fexp.
    cbn [SpecFloat.Zdigits2 SpecFloat.shr_record_of_loc].
    rewrite HfM, Hd. cbn [SpecFloat.shr].
    rewrite iter_pos_nat, (shr_1_exact _ M q HM).
    cbn [SpecFloat.shr_m SpecFloat.loc_of_shr_record
      SpecFloat.round_nearest_even SpecFloat.Zdigits2
      SpecFloat.shr_record_of_loc].
    replace (e + Zpos p) with t by lia.
    rewrite Hfq, Z.sub_diag. cbn [SpecFloat.shr SpecFloat.shr_m].
    by rewrite Hle.
  - assert (Hq : Pos.iter xO M d = q).
    { apply Pos2Z.inj. rewrite Zpos_iter_xO.
      replace (e + 52) with (Zpos d + (t + 52)) in Hval by lia.
      rewrite (pow2_split (Zpos d) (t + 52)), Z.mul_assoc in Hval by lia.
      apply Z.mul_cancel_r in Hval; [lia|]. apply Z.pow_nonzero; lia. }
    rewrite Hq.
    unfold SpecFloat.binary_round_aux, SpecFloat.shr_fexp.
    cbn [SpecFloat.Zdigits2 SpecFloat.shr_record_of_loc].
    rewrite Hfq, Z.sub_diag. cbn [SpecFloat.shr SpecFloat.shr_m
      SpecFloat.loc_of_shr_record SpecFloat.round_nearest_even
      SpecFloat.Zdigits2 SpecFloat.shr_record_of_loc].
    rewrite Hfq, Z.sub_diag. cbn [SpecFloat.shr SpecFloat.shr_m].
    by rewrite Hle.
Qed.

Lemma canonical_significand (v : Z) :
  0 < v ≤ 2 ^ 53 → ∃ q : positive, Zpos q * 2 ^ Z.log2 v = v * 2 ^ 52.
Proof.
  intros [Hpos Hle].
  pose proof (Z.log2_nonneg v) as Hl0.
  destruct (decide (Z.log2 v ≤ 52)) as [Hl|Hl].
  - exists (Z.to_pos (v * 2 ^ (52 - Z.log2 v))).
    assert (0 < 2 ^ (52 - Z.log2 v)) by (apply Z.pow_pos_nonneg; lia).
    rewrite Z2Pos.id by lia.
    rewrite <- Z.mul_assoc, <- Z.pow_add_r by lia.
    do 2 f_equal. lia.
  - assert (Hl53 : Z.log2 v = 53).
    { pose proof (Z.log2_le_mono _ _ Hle) as Hm.
      rewrite Z.log2_pow2 in Hm by lia. lia. }
    pose proof (Z.log2_spec v Hpos) as [Hlow _]. rewrite Hl53 in Hlow.
    exists (Z.to_pos (2 ^ 52)). rewrite Hl53.
    assert (v = 2 ^ 53) as -> by lia. done.
Qed.

Lemma round_integer (s : bool) (M : positive) (e v : Z) :
  0 < v ≤ 2 ^ 53 → -52 ≤ e →
  Zpos M * 2 ^ (e + 52) = v * 2 ^ 52 →
  ∃ (q : positive) (t : Z),
    SpecFloat.binary_round FloatOps.prec FloatOps.emax s M e =
      SpecFloat.S754_finite s q t ∧
    t = Z.log2 v - 52 ∧
    Zpos q * 2 ^ (t + 52) = v * 2 ^ 52.
Proof.
  intros Hv He Hval.
  destruct (canonical_significand v Hv) as [q Hq].
  pose proof (Z.log2_nonneg v) as Hl0.
  assert (Hl53 : Z.log2 v ≤ 53).
  { destruct Hv as [_ Hle]. apply Z.log2_le_mono in Hle.
    rewrite Z.log2_pow2 in Hle by lia. lia. }
  assert (Hlog : Z.log2 (Zpos M) + e = Z.log2 v).
  { assert (Z.log2 (Zpos M * 2 ^ (e + 52)) = Z.log2 (v * 2 ^ 52)) as Hl
      by (by rewrite Hval).
    rewrite !Z.log2_mul_pow2 in Hl by lia. lia. }
  exists q, (Z.log2 v - 52).
  replace (Z.log2 v - 52 + 52) with (Z.log2 v) by lia.
  split; [|done].
  apply round_value; [lia|lia|lia|].
  replace (Z.log2 v - 52 + 52) with (Z.log2 v) by lia. by rewrite Hq, Hval.
Qed.

Lemma represents_unique (z : Z) (x y : SpecFloat.spec_float) :
  Represents z x → Represents z y → x = y.
Proof.
  intros [[Hz ->]|[Hz (q & t & -> & Ht & Hq)]]
         [[Hz' ->]|[Hz' (q' & t' & -> & Ht' & Hq')]]; try done.
  subst t t'. f_equal. apply Pos2Z.inj.
  rewrite <- Hq' in Hq. apply Z.mul_cancel_r in Hq; [done|].
  apply Z.pow_nonzero; [lia|]. pose proof (Z.log2_nonneg (Z.abs z)). lia.
Qed.

Lemma represents_ofZ (z : Z) :
  Z.abs z ≤ 2 ^ 53 → Represents z (FloatOps.Prim2SF (Binary64.ofZ z)).
Proof.
  intros Hz. unfold Binary64.ofZ.
  assert (HwB : Uint63.wB = 2 ^ 63) by reflexivity.
  destruct z as [|v|v].
  - left. split; [done|]. change (0 <? 0) with false. cbv iota.
    rewrite FloatAxioms.of_uint63_spec, Uint63.of_Z_spec, Z.mod_small
      by (rewrite HwB; lia).
    done.
  - right. split; [done|]. change (Zpos v <? 0) with false. cbv iota.
    rewrite FloatAxioms.of_uint63_spec, Uint63.of_Z_spec, Z.mod_small
      by (rewrite HwB; lia).
    cbn [SpecFloat.binary_normalize].
    apply round_integer; [lia|lia|done].
  - right. split; [done|]. change (Zneg v <? 0) with true. cbv iota.
    change (- Zneg v) with (Zpos v).
    rewrite FloatAxioms.opp_spec, FloatAxioms.of_uint63_spec,
      Uint63.of_Z_spec, Z.mod_small by (rewrite HwB; lia).
    cbn [SpecFloat.binary_normalize].
    destruct (round_integer false v 0 (Zpos v)) as (q & t & -> & Ht & Hq);
      [lia|lia|done|].
    exists q, t. done.
Qed.

Lemma shl_align_value (m : positive) (e ez : Z) :
  ez ≤ e →
  Zpos (fst (SpecFloat.shl_align m e ez)) = Zpos m * 2 ^ (e - ez).
Proof.
  intros Hle. unfold SpecFloat.shl_align.
  destruct (ez - e) as [|p|d] eqn:Hd; simpl.
  - replace (e - ez) with 0 by lia. lia.
  - lia.
  - rewrite Zpos_iter_xO. do 2 f_equal. lia.
Qed.

Lemma cond_Zopp_sign (z : Z) :
  SpecFloat.cond_Zopp (z <? 0) (Z.abs z) = z.
Proof. destruct z; done. Qed.

Lemma represents_add (a b : Z) (x y : SpecFloat.spec_float) :
  Z.abs (a + b) ≤ 2 ^ 53 →
  Represents a x → Represents b y →
  Represents (a + b) (SpecFloat.SFadd FloatOps.prec FloatOps.emax x y).
Proof.
  intros Hab [[-> ->]|[Ha (qa & ta & -> & Hta & Hqa)]]
             [[-> ->]|[Hb (qb & tb & -> & Htb & Hqb)]].
  - by left.
  - right. split; [done|]. by exists qb, tb.
  - rewrite Z.add_0_r. right. split; [done|]. by exists qa, ta.
  - cbn [SpecFloat.SFadd].
    pose proof (Z.log2_nonneg (Z.abs a)) as Hla.
    pose proof (Z.log2_nonneg (Z.abs b)) as Hlb.
    set (ez := Z.min ta tb).
    assert (Hez : -52 ≤ ez) by (unfold ez; lia).
    assert (HA : SpecFloat.cond_Zopp (a <? 0)
                   (Zpos (fst (SpecFloat.shl_align qa ta ez))) * 2 ^ (ez + 52) =
                 a * 2 ^ 52).
    { rewrite shl_align_value by (unfold ez; lia).
      rewrite <- (cond_Zopp_sign a) at 2.
      assert (Zpos qa * 2 ^ (ta - ez) * 2 ^ (ez + 52) = Z.abs a * 2 ^ 52) as Hs.
      { rewrite <- Z.mul_assoc, <- Z.pow_add_r by (unfold ez; lia).
        replace (ta - ez + (ez + 52)) with (ta + 52) by lia. done. }
      destruct (a <? 0); simpl; lia. }
    assert (HB : SpecFloat.cond_Zopp (b <? 0)
                   (Zpos (fst (SpecFloat.shl_align qb tb ez))) * 2 ^ (ez + 52) =
                 b * 2 ^ 52).
    { rewrite shl_align_value by (unfold ez; lia).
      rewrite <- (cond_Zopp_sign b) at 2.
      assert (Zpos qb * 2 ^ (tb - ez) * 2 ^ (ez + 52) = Z.abs b * 2 ^ 52) as Hs.
      { rewrite <- Z.mul_assoc, <- Z.pow_add_r by (unfold ez; lia).
        replace (tb - ez + (ez + 52)) with (tb + 52) by lia. done. }
      destruct (b <? 0); simpl; lia. }
    set (Msum := SpecFloat.cond_Zopp (a <? 0) _ + SpecFloat.cond_Zopp (b <? 0) _).
    assert (Hsum : Msum * 2 ^ (ez + 52) = (a + b) * 2 ^ 52).
    { unfold Msum. lia. }
    clearbody Msum.
    assert (Hp : 0 < 2 ^ (ez + 52)) by (apply Z.pow_pos_nonneg; lia).
    destruct Msum as [|M|M]; cbn [SpecFloat.binary_normalize].
    + left. split; [lia|done].
    + assert (Hpos : 0 < a + b) by nia.
      right. split; [lia|].
      rewrite (proj2 (Z.ltb_ge _ _)) by lia.
      rewrite Z.abs_eq by lia.
      apply round_integer; [lia|lia|done].
    + assert (Hneg : a + b < 0) by nia.
      right. split; [lia|].
      rewrite (proj2 (Z.ltb_lt _ _)) by lia.
      rewrite Z.abs_neq by lia.
      apply round_integer; [lia|lia|lia].
Qed.

Lemma SFsub_add_opp (x y : SpecFloat.spec_float) :
  SpecFloat.SFsub FloatOps.prec FloatOps.emax x y =
  SpecFloat.SFadd FloatOps.prec FloatOps.emax x (SpecFloat.SFopp y).
Proof.
  destruct x as [sx|sx| |sx mx ex], y as [sy|sy| |sy my ey]; try done;
    by destruct sx, sy.
Qed.

Lemma represents_opp (z : Z) (x : SpecFloat.spec_float) :
  z ≠ 0 → Represents z x → Represents (- z) (SpecFloat.SFopp x).
Proof.
  intros Hz [[-> ->]|[_ (q & t & -> & Ht & Hq)]]; [done|].
  right. split; [lia|]. exists q, t. rewrite Z.abs_opp.
  split; [|done]. simpl. f_equal. by destruct z.
Qed.

Lemma represents_sub (a b : Z) (x y : SpecFloat.spec_float) :
  Z.abs (a - b) ≤ 2 ^ 53 →
  Represents a x → Represents b y →
  Represents (a - b) (SpecFloat.SFsub FloatOps.prec FloatOps.emax x y).
Proof.
  intros Hab Hx Hy. destruct (decide (b = 0)) as [->|Hb].
  - destruct Hy as [[_ ->]|[? _]]; [|done]. rewrite Z.sub_0_r.
    destruct Hx as [[-> ->]|[Ha (qa & ta & -> & Hta & Hqa)]].
    + by left.
    + right. split; [done|]. by exists qa, ta.
  - rewrite SFsub_add_opp. apply (represents_add a (- b)); [done|done|].
    by apply represents_opp.
Qed.

(** Binary64 addition and subtraction are exact on the integers of
    magnitude up to [2 ^ 53], whenever the exact result is such an integer
    too. *)
Lemma binary64_exact (a b : Z) :
  Binary64.safeInteger a → Binary64.safeInteger b →
  (Binary64.safeInteger (a + b) →
   PrimFloat.add (Binary64.ofZ a) (Binary64.ofZ b) = Binary64.ofZ (a + b)) ∧
  (Binary64.safeInteger (a - b) →
   PrimFloat.sub (Binary64.ofZ a) (Binary64.ofZ b) = Binary64.ofZ (a - b)).
Proof.
  unfold Binary64.safeInteger.
  intros Ha Hb. split; intros Hab; apply FloatAxioms.Prim2SF_inj.
  - rewrite FloatAxioms.add_spec.
    apply (represents_unique (a + b)); [|by apply represents_ofZ].
    apply represents_add; [done| |]; by apply represents_ofZ.
  - rewrite FloatAxioms.sub_spec.
    apply (represents_unique (a - b)); [|by apply represents_ofZ].
    apply represents_sub; [done| |]; by apply represents_ofZ.
Qed.

Lemma represents_inj (a b : Z) (x : SpecFloat.spec_float) :
  Represents a x → Represents b x → a = b.
Proof.
  intros [[-> ->]|[Ha (qa & ta & -> & Hta & Hqa)]]
         [[-> Hx]|[Hb (qb & tb & Hx & Htb & Hqb)]]; try done.
  injection Hx as Hs <- <-.
  assert (Habs : Z.abs a = Z.abs b).
  { rewrite Hqa in Hqb. apply Z.mul_cancel_r in Hqb; [done|]. lia. }
  destruct (Z.ltb_spec a 0), (Z.ltb_spec b 0); try done; lia.
Qed.

(** Different integers of magnitude up to [2 ^ 53] are different numbers. *)
Lemma ofZ_inj (a b : Z) :
  Binary64.safeInteger a → Binary64.safeInteger b →
  Binary64.ofZ a = Binary64.ofZ b → a = b.
Proof.
  intros Ha Hb Hab.
  apply (represents_inj a b (FloatOps.Prim2SF (Binary64.ofZ a))).
  - by apply represents_ofZ.
  - rewrite Hab. by apply represents_ofZ.
Qed.

(** *** Up to the magnitude [2 ^ 53] the code computes what exact arithmetic
    computes *)

Lemma sumZ_abs_nonneg (l : list Z) : 0 ≤ sumZ (Z.abs <$> l).
Proof.
  induction l as [|x l IH]; [simpl; lia|].
  rewrite fmap_cons. cbn [sumZ]. lia.
Qed.

Lemma add_exact (a b : Z) :
  Z.abs a + Z.abs b ≤ 2 ^ 53 →
  PrimFloat.add (Binary64.ofZ a) (Binary64.ofZ b) = Binary64.ofZ (a + b).
Proof.
  intros Hab. apply binary64_exact; unfold Binary64.safeInteger; lia.
Qed.

Lemma sub_exact (a b : Z) :
  Z.abs a ≤ 2 ^ 53 → Z.abs b ≤ 2 ^ 53 → Z.abs (a - b) ≤ 2 ^ 53 →
  PrimFloat.sub (Binary64.ofZ a) (Binary64.ofZ b) = Binary64.ofZ (a - b).
Proof. intros Ha Hb Hab. by apply binary64_exact. Qed.

Lemma segmentLoop_exact (idsArr : list string) (rest : list Z) :
  ∀ (i : nat) (segs : gmap string (list Z)) (cur : Z),
    Z.abs cur + sumZ (Z.abs <$> rest) ≤ 2 ^ 53 →
    Binary64.segmentLoop idsArr i (Binary64.ofZ <$> rest)
      (fmap (M := list) Binary64.ofZ <$> segs) (Binary64.ofZ cur) =
    fmap (M := list) Binary64.ofZ <$> segmentLoop idsArr i rest segs cur.
Proof.
  induction rest as [|delta rest IH]; intros i segs cur Hb; [done|].
  rewrite fmap_cons. cbn [Binary64.segmentLoop segmentLoop].
  cbn [sumZ fmap list_fmap] in Hb.
  pose proof (sumZ_abs_nonneg rest) as Hrest.
  rewrite add_exact by lia.
  rewrite lookup_fmap.
  replace (default [] (fmap (M := list) Binary64.ofZ <$> segs !! idAt idsArr i))
    with (Binary64.ofZ <$> default [] (segs !! idAt idsArr i))
    by (by destruct (segs !! idAt idsArr i)).
  change [Binary64.ofZ cur; Binary64.ofZ (cur + delta)]
    with (Binary64.ofZ <$> [cur; cur + delta]).
  rewrite <- fmap_app, <- fmap_insert.
  apply IH. lia.
Qed.

Lemma groupSegments_exact (p : IExtensionHostProfile) :
  magnitude p ≤ 2 ^ 53 →
  Binary64.groupSegments (Some (ofTrace p)) =
  fmap (M := list) Binary64.ofZ <$> groupSegments (Some p).
Proof.
  intros Hb. unfold Binary64.groupSegments, groupSegments, ofTrace. simpl.
  rewrite <- (segmentLoop_exact _ _ _ _ _ Hb). by rewrite fmap_empty.
Qed.

Lemma sumAbsLengths_nonneg (ivs : list (Z * Z)) : 0 ≤ sumAbsLengths ivs.
Proof. induction ivs as [|[s e] ivs IH]; simpl; lia. Qed.

Lemma sumLengths_bounded (ivs : list (Z * Z)) :
  Z.abs (sumLengths ivs) ≤ sumAbsLengths ivs.
Proof. induction ivs as [|[s e] ivs IH]; simpl; lia. Qed.

(** The intervals of a label: boundaries and lengths stay within the
    magnitude of the trace. *)
Lemma intervalsOf_bounded (lbl : string) (pairs : list (string * Z)) :
  ∀ cur,
    Forall (fun iv => Z.abs (fst iv) ≤ Z.abs cur + sumZ (Z.abs <$> pairs.*2) ∧
                      Z.abs (snd iv) ≤ Z.abs cur + sumZ (Z.abs <$> pairs.*2))
           (intervalsOf lbl cur pairs) ∧
    sumAbsLengths (intervalsOf lbl cur pairs) ≤ sumZ (Z.abs <$> pairs.*2).
Proof.
  induction pairs as [|[l delta] pairs IH]; intros cur.
  - simpl. split; [constructor|lia].
  - rewrite !fmap_cons. cbn [intervalsOf sumZ snd].
    destruct (IH (cur + delta)) as [Hall Hsum].
    pose proof (sumZ_abs_nonneg pairs.*2) as Hrest.
    assert (Hall' : Forall
      (fun iv => Z.abs (fst iv) ≤
                   Z.abs cur + (Z.abs delta + sumZ (Z.abs <$> pairs.*2)) ∧
                 Z.abs (snd iv) ≤
                   Z.abs cur + (Z.abs delta + sumZ (Z.abs <$> pairs.*2)))
      (intervalsOf lbl (cur + delta) pairs)).
    { eapply Forall_impl; [exact Hall|]. simpl. intros iv [? ?]. lia. }
    case_decide; cbn [sumAbsLengths].
    + split; [|lia]. constructor; [simpl; lia|done].
    + split; [done|lia].
Qed.

Lemma foldl_pairs_cons2 {A B} (F : B → option A → option A → B)
    (s e : A) (l : list A) (acc : B) :
  foldl (fun t j => F t ((s :: e :: l) !! (2 * j)%nat)
                        ((s :: e :: l) !! (2 * j + 1)%nat))
        acc (seq 0 ((length (s :: e :: l) + 1) / 2)%nat) =
  foldl (fun t j => F t (l !! (2 * j)%nat) (l !! (2 * j + 1)%nat))
        (F acc (Some s) (Some e)) (seq 0 ((length l + 1) / 2)%nat).
Proof.
  replace ((length (s :: e :: l) + 1) / 2)%nat
    with (S ((length l + 1) / 2)).
  2:{ simpl length.
      replace (S (S (length l)) + 1)%nat with (1 * 2 + (length l + 1))%nat
        by lia.
      rewrite Nat.div_add_l by lia. lia. }
  rewrite <- cons_seq, <- fmap_S_seq. cbn [foldl]. rewrite foldl_fmap.
  apply foldl_pointwise. intros t j.
  replace (2 * S j + 1)%nat with (S (S (2 * j + 1))) by lia.
  replace (2 * S j)%nat with (S (S (2 * j))) by lia.
  done.
Qed.

Lemma sumSegments_exact_from (ivs : list (Z * Z)) :
  ∀ acc : Z,
    Forall (fun iv => Z.abs (fst iv) ≤ 2 ^ 53 ∧ Z.abs (snd iv) ≤ 2 ^ 53) ivs →
    Z.abs acc + sumAbsLengths ivs ≤ 2 ^ 53 →
    foldl (fun extensionTotalTime j =>
             PrimFloat.add extensionTotalTime
               (PrimFloat.sub
                  (default PrimFloat.nan
                     ((Binary64.ofZ <$> flatten ivs) !! (2 * j + 1)%nat))
                  (default PrimFloat.nan
                     ((Binary64.ofZ <$> flatten ivs) !! (2 * j)%nat))))
          (Binary64.ofZ acc)
          (seq 0 ((length (Binary64.ofZ <$> flatten ivs) + 1) / 2)%nat) =
    Binary64.ofZ (acc + sumLengths ivs).
Proof.
  induction ivs as [|[s e] ivs IH]; intros acc Hall Hb.
  - simpl. by rewrite Z.add_0_r.
  - apply Forall_cons in Hall as [[Hs He] Hall]. simpl in Hs, He, Hb.
    pose proof (sumAbsLengths_nonneg ivs) as Hrest.
    cbn [flatten]. rewrite !fmap_cons.
    rewrite (foldl_pairs_cons2
      (fun t a b => PrimFloat.add t
         (PrimFloat.sub (default PrimFloat.nan b)
                        (default PrimFloat.nan a)))).
    cbn [default from_option].
    change (Datatypes.id (Binary64.ofZ e)) with (Binary64.ofZ e).
    change (Datatypes.id (Binary64.ofZ s)) with (Binary64.ofZ s).
    rewrite sub_exact by lia. rewrite add_exact by lia.
    rewrite IH; [|done|lia]. cbn [sumLengths]. f_equal. lia.
Qed.

Lemma sumSegments_exact (p : IExtensionHostProfile) (lbl : string) :
  magnitude p ≤ 2 ^ 53 →
  Binary64.sumSegments
    (Binary64.ofZ <$> default [] (groupSegments (Some p) !! lbl)) =
  Binary64.ofZ (sumSegments (default [] (groupSegments (Some p) !! lbl))).
Proof.
  intros Hb. rewrite groupSegments_lookup, sumSegments_flatten.
  unfold magnitude in Hb.
  destruct (intervalsOf_bounded lbl (pairsFrom (ids p) 0 (deltas p))
              (startTime p)) as [Hall Hsum].
  rewrite pairsFrom_snd in Hall, Hsum.
  pose proof (sumZ_abs_nonneg (deltas p)) as Hrest.
  unfold Binary64.sumSegments.
  rewrite <- (Z.add_0_l (sumLengths _)).
  apply sumSegments_exact_from.
  - eapply Forall_impl; [exact Hall|]. simpl. intros iv [? ?]. lia.
  - simpl. lia.
Qed.

Lemma extensionProfileInfo_exact (p : IExtensionHostProfile)
    (d : IExtensionDescription) :
  magnitude p ≤ 2 ^ 53 →
  Binary64.extensionProfileInfo (Some (ofTrace p))
    (Binary64.groupSegments (Some (ofTrace p))) d =
  ofInfo <$> extensionProfileInfo (Some p) (groupSegments (Some p)) d.
Proof.
  intros Hb. rewrite groupSegments_exact by done.
  unfold Binary64.extensionProfileInfo, extensionProfileInfo, ofInfo. simpl.
  rewrite lookup_fmap.
  replace (default []
             (fmap (M := list) Binary64.ofZ <$> groupSegments (Some p) !! id d))
    with (Binary64.ofZ <$> default [] (groupSegments (Some p) !! id d))
    by (by destruct (groupSegments (Some p) !! id d)).
  by rewrite sumSegments_exact.
Qed.

Lemma totals_exact (p : IExtensionHostProfile) :
  magnitude p ≤ 2 ^ 53 →
  Binary64.totals (Some (ofTrace p)) =
  Binary64.ofZ <$> (sumSegments <$> groupSegments (Some p)).
Proof.
  intros Hb. unfold Binary64.totals. rewrite groupSegments_exact by done.
  rewrite <- !map_fmap_compose. apply map_fmap_ext.
  intros lbl v Hv. simpl.
  pose proof (sumSegments_exact p lbl Hb) as Hex.
  by rewrite Hv in Hex.
Qed.

(** C5, as stated, fails in the numbers of the code: on a trace that starts
    at [2 ^ 53] with two deltas of one tick, which sum to
    [endTime - startTime = 2], the cursor never moves, all four segment
    boundaries are [2 ^ 53], and the only label has the total 0. *)
Lemma segmenter_covers_trace_counterexample :
  sumZ (deltas edgeTrace) = endTime edgeTrace - startTime edgeTrace ∧
  endTime edgeTrace - startTime edgeTrace = 2 ∧
  Binary64.groupSegments (Some (ofTrace edgeTrace)) =
    {[ "A"%string := Binary64.ofZ <$> [2 ^ 53; 2 ^ 53; 2 ^ 53; 2 ^ 53] ]} ∧
  Binary64.totals (Some (ofTrace edgeTrace)) =
    {[ "A"%string := Binary64.ofZ 0 ]}.
Proof. repeat split; vm_compute; reflexivity. Qed.

(** C5, amended. For a trace of integer ticks whose start time and deltas
    have magnitudes that sum to at most [2 ^ 53], and whose deltas sum to
    [endTime - startTime]: the total that the code computes for a label is an
    integer of magnitude at most [2 ^ 53], and these integers sum to
    [endTime - startTime]. *)
Theorem segmenter_covers_safe_trace (p : IExtensionHostProfile) :
  magnitude p ≤ 2 ^ 53 →
  sumZ (deltas p) = endTime p - startTime p →
  ∃ totals : gmap string Z,
    Binary64.totals (Some (ofTrace p)) = Binary64.ofZ <$> totals ∧
    map_Forall (fun _ t => Binary64.safeInteger t) totals ∧
    map_fold (fun _ t acc => t + acc) 0 totals = endTime p - startTime p.
Proof.
  intros Hb Hsum.
  exists (sumSegments <$> groupSegments (Some p)). split; [|split].
  - by apply totals_exact.
  - intros lbl t Ht. rewrite lookup_fmap in Ht.
    destruct (groupSegments (Some p) !! lbl) as [v|] eqn:Hv; [|done].
    injection Ht as <-.
    pose proof (groupSegments_lookup p lbl) as Hl. rewrite Hv in Hl.
    simpl in Hl. rewrite Hl, sumSegments_flatten.
    destruct (intervalsOf_bounded lbl (pairsFrom (ids p) 0 (deltas p))
                (startTime p)) as [_ Hlen].
    rewrite pairsFrom_snd in Hlen.
    pose proof (sumLengths_bounded
      (intervalsOf lbl (startTime p) (pairsFrom (ids p) 0 (deltas p)))).
    unfold magnitude in Hb. unfold Binary64.safeInteger. lia.
  - rewrite map_fold_fmap, <- Hsum, <- groupSegments_total. done.
Qed.

Lemma segmenter_covers_safe_trace_witness :
  ∃ totals : gmap string Z,
    Binary64.totals (Some (ofTrace sampleTrace)) = Binary64.ofZ <$> totals ∧
    map_Forall (fun _ t => Binary64.safeInteger t) totals ∧
    map_fold (fun _ t acc => t + acc) 0 totals = 2000 - 1000.
Proof.
  apply (segmenter_covers_safe_trace sampleTrace).
  - vm_compute. discriminate.
  - reflexivity.
Defined.

(** On [sampleTrace] the code gives ["A"] the total 700 and ["B"] the total
    300. *)
Example sampleTrace_totals :
  Binary64.totals (Some (ofTrace sampleTrace)) =
  {[ "A"%string := Binary64.ofZ 700; "B"%string := Binary64.ofZ 300 ]}.
Proof. vm_compute. reflexivity. Qed.

(** X1. For a trace of integer ticks of magnitude at most [2 ^ 53], the
    total time of an extension is the sum of the deltas of the trace entries
    that bear its identifier, whatever their sign. *)
Theorem totalTime_is_sum_of_own_deltas (p : IExtensionHostProfile)
    (pairs : list (string * Z)) (d : IExtensionDescription)
    (info : Binary64.IExtensionProfileInformation) :
  magnitude p ≤ 2 ^ 53 →
  ids p = pairs.*1 →
  deltas p = pairs.*2 →
  Binary64.extensionProfileInfo (Some (ofTrace p))
    (Binary64.groupSegments (Some (ofTrace p))) d = Some info →
  Binary64.totalTime info = Binary64.ofZ (sumZ (labelDeltas (id d) pairs)).
Proof.
  intros Hb Hids Hdeltas.
  rewrite extensionProfileInfo_exact by done.
  rewrite extensionProfileInfo_pairs, Hids, Hdeltas, pairsFrom_of_pairs.
  intros [= <-]. simpl. by rewrite sumLengths_intervalsOf.
Qed.

Lemma totalTime_is_sum_of_own_deltas_witness :
  ∃ info,
    Binary64.extensionProfileInfo (Some (ofTrace sampleTrace))
      (Binary64.groupSegments (Some (ofTrace sampleTrace)))
      (describe "A") = Some info ∧
    Binary64.segments info = Binary64.ofZ <$> [1000; 1500; 1800; 2000] ∧
    Binary64.totalTime info = Binary64.ofZ (500 + (200 + 0)).
Proof.
  eexists. split; [reflexivity|]. split; [vm_compute; reflexivity|].
  apply (totalTime_is_sum_of_own_deltas sampleTrace
           [("A", 500); ("B", 300); ("A", 200)]%string (describe "A")).
  - vm_compute. discriminate.
  - reflexivity.
  - reflexivity.
  - reflexivity.
Defined.

(** X3. For a trace of integer ticks of magnitude at most [2 ^ 53], when the
    deltas are non-negative and sum to [endTime - startTime], no segment of
    any label leaves the profiling window: every segment boundary is an
    integer between [startTime] and [endTime]. *)
Theorem segments_within_window (p : IExtensionHostProfile) (lbl : string) :
  magnitude p ≤ 2 ^ 53 →
  Forall (fun delta => 0 ≤ delta) (deltas p) →
  sumZ (deltas p) = endTime p - startTime p →
  ∃ boundaries : list Z,
    default [] (Binary64.groupSegments (Some (ofTrace p)) !! lbl) =
      Binary64.ofZ <$> boundaries ∧
    Forall (fun t => startTime p ≤ t ≤ endTime p) boundaries.
Proof.
  intros Hb Hpos Hsum.
  exists (default [] (groupSegments (Some p) !! lbl)). split.
  - rewrite groupSegments_exact by done. rewrite lookup_fmap.
    by destruct (groupSegments (Some p) !! lbl).
  - by apply groupSegments_within.
Qed.

Lemma segments_within_window_witness :
  ∃ boundaries : list Z,
    default []
      (Binary64.groupSegments (Some (ofTrace sampleTrace)) !! "A"%string) =
      Binary64.ofZ <$> boundaries ∧
    Forall (fun t => 1000 ≤ t ≤ 2000) boundaries.
Proof.
  apply (segments_within_window sampleTrace "A").
  - vm_compute. discriminate.
  - repeat constructor; lia.
  - reflexivity.
Defined.

(** Beyond that magnitude a segment can leave the window: with two deltas of
    three ticks from [2 ^ 53] on, the cursor is rounded to [2 ^ 53 + 4] and
    then to [2 ^ 53 + 8], past the end time [2 ^ 53 + 6], and the total is
    8. *)
Example segments_leave_window_beyond_bound :
  sumZ (deltas edgeTrace3) = endTime edgeTrace3 - startTime edgeTrace3 ∧
  Binary64.groupSegments (Some (ofTrace edgeTrace3)) =
    {[ "A"%string :=
         Binary64.ofZ <$> [2 ^ 53; 2 ^ 53 + 4; 2 ^ 53 + 4; 2 ^ 53 + 8] ]} ∧
  Binary64.totals (Some (ofTrace edgeTrace3)) =
    {[ "A"%string := Binary64.ofZ 8 ]}.
Proof. repeat split; vm_compute; reflexivity. Qed.

(** X4. A trace with fewer ids than deltas: [ids[i]] past the end of the
    array is [undefined], so the surplus deltas are booked under the
    property name ["undefined"], one segment for each. For a trace of
    integer ticks of magnitude at most [2 ^ 53] an extension with that
    identifier is shown with their sum as its total time. *)
Theorem surplus_deltas_go_to_undefined (p : IExtensionHostProfile)
    (info : Binary64.IExtensionProfileInformation) :
  magnitude p ≤ 2 ^ 53 →
  "undefined"%string ∉ ids p →
  Binary64.extensionProfileInfo (Some (ofTrace p))
    (Binary64.groupSegments (Some (ofTrace p)))
    (describe "undefined") = Some info →
  Binary64.totalTime info =
    Binary64.ofZ (sumZ (drop (length (ids p)) (deltas p))) ∧
  length (Binary64.segments info) =
    (2 * (length (deltas p) - length (ids p)))%nat.
Proof.
  intros Hb Hnot.
  rewrite extensionProfileInfo_exact by done.
  destruct (extensionProfileInfo (Some p) (groupSegments (Some p))
              (describe "undefined")) as [infoZ|] eqn:HZ; [|done].
  destruct (undefined_profileInfo p infoZ Hnot HZ) as [Htotal Hlen].
  intros [= <-]. simpl. by rewrite length_fmap, Htotal, Hlen.
Qed.

Lemma surplus_deltas_go_to_undefined_witness :
  ∃ info,
    Binary64.extensionProfileInfo (Some (ofTrace raggedTrace))
      (Binary64.groupSegments (Some (ofTrace raggedTrace)))
      (describe "undefined") = Some info ∧
    Binary64.segments info = Binary64.ofZ <$> [130; 135; 135; 160] ∧
    Binary64.totalTime info = Binary64.ofZ (5 + (25 + 0)) ∧
    length (Binary64.segments info) = (2 * (4 - 2))%nat.
Proof.
  eexists. split; [reflexivity|]. split; [vm_compute; reflexivity|].
  apply (surplus_deltas_go_to_undefined raggedTrace).
  - vm_compute. discriminate.
  - intros Hin. repeat (apply elem_of_cons in Hin as [Hin|Hin]; [discriminate Hin|]).
    by apply elem_of_nil in Hin.
  - reflexivity.
Defined.

(** X7. For a trace of integer ticks of magnitude at most [2 ^ 53], with
    distinct extension identifiers and non-negative deltas, the total times
    of the extensions never add up to more than the trace accounts for: they
    are integers whose sum lies between 0 and the sum of all deltas (the rest
    is the time of labels that are no extension, such as idle time). *)
Theorem totals_within_trace (p : IExtensionHostProfile)
    (ds : list IExtensionDescription) :
  magnitude p ≤ 2 ^ 53 →
  NoDup (id <$> ds) →
  Forall (fun delta => 0 ≤ delta) (deltas p) →
  ∃ totals : list Z,
    (fun d => Binary64.totalTime <$>
                Binary64.extensionProfileInfo (Some (ofTrace p))
                  (Binary64.groupSegments (Some (ofTrace p))) d) <$> ds =
      (fun t => Some (Binary64.ofZ t)) <$> totals ∧
    0 ≤ sumZ totals ≤ sumZ (deltas p).
Proof.
  intros Hb Hnodup Hpos.
  exists ((fun k => sumSegments (default [] (groupSegments (Some p) !! k))) <$>
            (id <$> ds)).
  split.
  - rewrite <- !list_fmap_compose. apply list_fmap_ext. intros i d _.
    by rewrite extensionProfileInfo_exact by done.
  - split.
    + apply sumZ_nonneg, Forall_fmap, Forall_forall. intros k _. simpl.
      by apply groupSegments_totals_nonneg.
    + rewrite <- groupSegments_total. apply distinct_keys_total; [done|].
      intros k. by apply groupSegments_totals_nonneg.
Qed.

Lemma totals_within_trace_witness :
  ∃ totals : list Z,
    (fun d => Binary64.totalTime <$>
                Binary64.extensionProfileInfo (Some (ofTrace sampleTrace))
                  (Binary64.groupSegments (Some (ofTrace sampleTrace))) d) <$>
      [describe "A"; describe "B"; describe "C"] =
      (fun t => Some (Binary64.ofZ t)) <$> totals ∧
    0 ≤ sumZ totals ≤ 500 + (300 + (200 + 0)).
Proof.
  apply (totals_within_trace sampleTrace
           [describe "A"; describe "B"; describe "C"]).
  - vm_compute. discriminate.
  - apply (bool_decide_unpack _). vm_compute. exact I.
  - repeat constructor; lia.
Defined.
